(** * The packaging pipeline of hangouts-chat-linux (src/build/buildApp.js,
    src/build/buildMain.js), embedded in Rocq.

    The two source files are JavaScript.  Their pure helpers become Rocq
    functions; the code that logs, looks up executables, copies files and
    calls the external services runs in a small state-and-exception monad
    over an explicit run state (object store, event trace, lookup counter). *)

From Stdlib Require Import ZArith List Bool Ascii String PrimFloat Lia FunInd.
From stdpp Require Import base list strings.

Open Scope string_scope.
Open Scope list_scope.

(** ** JavaScript values *)

(** The values a configuration can hold.  Numbers are IEEE doubles.  [VFun]
    stands for any function (only its name is kept), [VErr] for an [Error]
    object with the given message.  Arrays and plain objects nest freely; an
    object is the list of its own properties in insertion order. *)
#[local] Unset Elimination Schemes.
Inductive value : Type :=
| VUndef
| VNull
| VBool (b : bool)
| VNum (n : float)
| VStr (s : string)
| VFun (name : string)
| VErr (msg : string)
| VArr (items : list value)
| VObj (fields : list (string * value)).
#[local] Set Elimination Schemes.

(** A configuration object: its own properties, in insertion order. *)
Definition obj : Type := list (string * value).

(** [ToBoolean]: what [if (v)] and [!v] test. *)
Definition truthy (v : value) : bool :=
  match v with
  | VUndef | VNull => false
  | VBool b => b
  | VNum n => negb (PrimFloat.is_zero n || PrimFloat.is_nan n)
  | VStr s => negb (String.eqb s "")
  | VFun _ | VErr _ | VArr _ | VObj _ => true
  end.

(** [v === s] for a string literal [s]. *)
Definition strict_eq_str (v : value) (s : string) : bool :=
  match v with
  | VStr t => String.eqb t s
  | _ => false
  end.

(** Own-property lookup: [None] when the object has no such property. *)
Fixpoint get (k : string) (o : obj) : option value :=
  match o with
  | [] => None
  | (k', v) :: o' => if String.eqb k' k then Some v else get k o'
  end.

(** The property read [o.k]: a missing property reads as [undefined]. *)
Definition getv (k : string) (o : obj) : value :=
  match get k o with
  | Some v => v
  | None => VUndef
  end.

(** The assignment [o[k] = v]: an existing property keeps its place, a new
    one is added at the end. *)
Fixpoint set (k : string) (v : value) (o : obj) : obj :=
  match o with
  | [] => [(k, v)]
  | (k', v') :: o' =>
      if String.eqb k' k then (k', v) :: o' else (k', v') :: set k v o'
  end.

(** The names of the own properties, as [Object.keys] lists them. *)
Definition keys (o : obj) : list string := map fst o.

(** ** [JSON.parse(JSON.stringify(v))] *)

(** A double that [JSON.stringify] prints as a number. *)
Definition is_finite (n : float) : bool :=
  negb (PrimFloat.is_nan n || PrimFloat.is_infinity n).

(** Negative zero, which is printed as [0]. *)
Definition is_neg_zero (n : float) : bool :=
  PrimFloat.is_zero n && PrimFloat.get_sign n.

(** What a value in an array slot becomes when it has no JSON text. *)
Definition or_null (r : option value) : value :=
  match r with
  | Some v => v
  | None => VNull
  end.

(** The value read back from the JSON text of [v]; [None] when
    [JSON.stringify] yields no text for [v] ([undefined] and functions), in
    which case an enclosing object drops the property and an enclosing array
    holds [null].  Non-finite numbers are printed as [null], negative zero as
    [0], and an [Error] (no own enumerable property) as an empty object. *)
Fixpoint json_clone (v : value) : option value :=
  match v with
  | VUndef => None
  | VFun _ => None
  | VNull => Some VNull
  | VBool b => Some (VBool b)
  | VNum n =>
      Some (if is_finite n
            then VNum (if is_neg_zero n then 0%float else n)
            else VNull)
  | VStr s => Some (VStr s)
  | VErr _ => Some (VObj [])
  | VArr items => Some (VArr (map (fun x => or_null (json_clone x)) items))
  | VObj fields =>
      Some (VObj ((fix go (l : list (string * value)) : list (string * value) :=
                     match l with
                     | [] => []
                     | (k, x) :: l' =>
                         match json_clone x with
                         | Some y => (k, y) :: go l'
                         | None => go l'
                         end
                     end) fields))
  end.

(** The same walk over the properties of a top-level object. *)
Fixpoint clone_fields (l : obj) : obj :=
  match l with
  | [] => []
  | (k, x) :: l' =>
      match json_clone x with
      | Some y => (k, y) :: clone_fields l'
      | None => clone_fields l'
      end
  end.

(** [JSON.parse(JSON.stringify(options))] for an object [options]. *)
Definition json_roundtrip (options : obj) : obj := clone_fields options.

(** A value that the round trip gives back unchanged. *)
Fixpoint serializable (v : value) : bool :=
  match v with
  | VUndef | VFun _ | VErr _ => false
  | VNull | VBool _ | VStr _ => true
  | VNum n => is_finite n && negb (is_neg_zero n)
  | VArr items => forallb serializable items
  | VObj fields => forallb (fun kv => serializable (snd kv)) fields
  end.

(** ** Strings: characters, paths, lodash's [kebabCase], MD5 *)

Definition code (c : ascii) : nat := nat_of_ascii c.

Definition in_range (lo hi : nat) (c : ascii) : bool :=
  Nat.leb lo (code c) && Nat.leb (code c) hi.

Definition is_upper : ascii -> bool := in_range 65 90.
Definition is_lower : ascii -> bool := in_range 97 122.
Definition is_digit : ascii -> bool := in_range 48 57.
Definition is_ascii : ascii -> bool := in_range 0 127.
Definition is_alnum (c : ascii) : bool := is_upper c || is_lower c || is_digit c.

Definition chars (s : string) : list ascii := list_ascii_of_string s.
Definition str (l : list ascii) : string := string_of_list_ascii l.

(** [String.prototype.toLowerCase] on ASCII text: [A-Z] become [a-z], every
    other byte is kept. *)
Definition lower_char (c : ascii) : ascii :=
  if is_upper c then ascii_of_nat (code c + 32) else c.

Definition toLowerCase (s : string) : string := str (map lower_char (chars s)).

(** *** Node's [path] module (POSIX) *)

Definition slash : ascii := "/"%char.
Definition dot : ascii := "."%char.

Definition is_char (a c : ascii) : bool := Ascii.eqb a c.

Fixpoint drop_while (p : ascii -> bool) (l : list ascii) : list ascii :=
  match l with
  | [] => []
  | c :: l' => if p c then drop_while p l' else l
  end.

Fixpoint take_while (p : ascii -> bool) (l : list ascii) : list ascii :=
  match l with
  | [] => []
  | c :: l' => if p c then c :: take_while p l' else []
  end.

(** The last portion of a path, reversed: trailing slashes are ignored. *)
Definition rev_basename (p : string) : list ascii :=
  take_while (fun c => negb (is_char slash c))
             (drop_while (is_char slash) (rev (chars p))).

(** [path.extname]: from the last dot of the last portion to its end; empty
    when that portion has no dot, starts with its only dot, or is [..]. *)
Definition extname (p : string) : string :=
  let rb := rev_basename p in
  let ext := take_while (fun c => negb (is_char dot c)) rb in
  match drop_while (fun c => negb (is_char dot c)) rb with
  | [] => ""
  | _ :: before =>
      match before, ext with
      | [], _ => ""
      | [d], [] => if is_char dot d then "" else "."
      | _, _ => str (dot :: rev ext)
      end
  end.

(** Repeated slashes collapse into one. *)
Fixpoint squeeze (l : list ascii) : list ascii :=
  match l with
  | [] => []
  | c :: l' =>
      match l' with
      | d :: _ => if is_char slash c && is_char slash d then squeeze l' else c :: squeeze l'
      | [] => [c]
      end
  end.

(** [path.join a b] for the paths this program joins: the two parts with a
    slash between them, repeated slashes collapsed ([.] and [..] segments do
    not occur in the second arguments of this program and are not resolved). *)
Definition path_join (a b : string) : string :=
  str (squeeze (chars a ++ slash :: chars b)).

(** *** lodash's [kebabCase] on lower-case ASCII text

    [_.kebabCase] removes apostrophes, splits the text into words and joins
    the lower-cased words with hyphens.  [normalizeAppName] applies it to
    [appName.toLowerCase()], so no upper-case letter reaches it; on such ASCII
    text the words of lodash's word patterns are the maximal runs of letters,
    the maximal runs of digits, and English ordinals ([1st], [22nd], [3rd],
    [4th]: a run of digits, the suffix that fits its last digit, then no
    further letter or digit), and every other byte separates words.  Bytes
    outside that domain (upper-case letters, bytes above 127) are treated as
    separators here. *)
Inductive run_kind := Letters | Digits | Breaks.

Definition kind_of (c : ascii) : run_kind :=
  if is_lower c then Letters else if is_digit c then Digits else Breaks.

Definition same_kind (a b : run_kind) : bool :=
  match a, b with
  | Letters, Letters | Digits, Digits | Breaks, Breaks => true
  | _, _ => false
  end.

(** The text cut into maximal runs of one kind. *)
Fixpoint runs (l : list ascii) : list (run_kind * list ascii) :=
  match l with
  | [] => []
  | c :: l' =>
      match runs l' with
      | (k, r) :: rest =>
          if same_kind (kind_of c) k then (k, c :: r) :: rest
          else (kind_of c, [c]) :: (k, r) :: rest
      | [] => [(kind_of c, [c])]
      end
  end.

(** The ordinal suffix that fits the last digit of a run of digits. *)
Definition ordinal_suffix (digits : list ascii) : string :=
  match List.last digits "0"%char with
  | "1"%char => "st"
  | "2"%char => "nd"
  | "3"%char => "rd"
  | _ => "th"
  end.

Definition is_digits (k : run_kind) : bool :=
  match k with Digits => true | _ => false end.

(** The words: letter runs, digit runs, and a digit run merged with the
    letter run after it when the two spell an ordinal that ends a run of
    letters and digits. *)
Function words (rs : list (run_kind * list ascii)) {struct rs} : list string :=
  match rs with
  | [] => []
  | (Breaks, _) :: rest => words rest
  | (Letters, r) :: rest => str r :: words rest
  | (Digits, d) :: rest =>
      match rest with
      | (Letters, r) :: rest' =>
          let ends_here :=
            match rest' with
            | (k, _) :: _ => negb (is_digits k)
            | [] => true
            end in
          if String.eqb (str r) (ordinal_suffix d) && ends_here
          then str (d ++ r) :: words rest'
          else str d :: words rest
      | _ => str d :: words rest
      end
  end.

Fixpoint join_hyphen (ws : list string) : string :=
  match ws with
  | [] => ""
  | [w] => w
  | w :: ws' => w +:+ "-" +:+ join_hyphen ws'
  end.

Definition apostrophe : ascii := "039"%char.

Definition kebabCase (s : string) : string :=
  join_hyphen
    (map toLowerCase
       (words (runs (List.filter (fun c => negb (is_char apostrophe c)) (chars s))))).

(** *** MD5 (RFC 1321), as [crypto.createHash('md5')] computes it

    Words are 32-bit integers held in [Z]; every addition wraps modulo
    [2^32]. *)
Definition wrap32 (x : Z) : Z := Z.land x 4294967295.

Definition add32 (a b : Z) : Z := wrap32 (a + b).

Definition rotl32 (x n : Z) : Z :=
  Z.lor (wrap32 (Z.shiftl x n)) (Z.shiftr x (32 - n)).

Definition not32 (x : Z) : Z := Z.lxor x 4294967295.

(** The sine table [floor(2^32 * abs(sin i))], [i = 1..64]. *)
Definition md5_K : list Z :=
  [ 3614090360; 3905402710;  606105819; 3250441966; 4118548399; 1200080426;
    2821735955; 4249261313; 1770035416; 2336552879; 4294925233; 2304563134;
    1804603682; 4254626195; 2792965006; 1236535329; 4129170786; 3225465664;
     643717713; 3921069994; 3593408605;   38016083; 3634488961; 3889429448;
     568446438; 3275163606; 4107603335; 1163531501; 2850285829; 4243563512;
    1735328473; 2368359562; 4294588738; 2272392833; 1839030562; 4259657740;
    2763975236; 1272893353; 4139469664; 3200236656;  681279174; 3936430074;
    3572445317;   76029189; 3654602809; 3873151461;  530742520; 3299628645;
    4096336452; 1126891415; 2878612391; 4237533241; 1700485571; 2399980690;
    4293915773; 2240044497; 1873313359; 4264355552; 2734768916; 1309151649;
    4149444226; 3174756917;  718787259; 3951481745 ]%Z.

(** The per-round left-rotation amounts. *)
Definition md5_S : list Z :=
  [ 7; 12; 17; 22; 7; 12; 17; 22; 7; 12; 17; 22; 7; 12; 17; 22;
    5;  9; 14; 20; 5;  9; 14; 20; 5;  9; 14; 20; 5;  9; 14; 20;
    4; 11; 16; 23; 4; 11; 16; 23; 4; 11; 16; 23; 4; 11; 16; 23;
    6; 10; 15; 21; 6; 10; 15; 21; 6; 10; 15; 21; 6; 10; 15; 21 ]%Z.

Record md5_state := MD5 { md5_a : Z; md5_b : Z; md5_c : Z; md5_d : Z }.

Definition md5_init : md5_state :=
  MD5 1732584193 4023233417 2562383102 271733878.

(** One of the 64 operations of a block, on the block's 16 words [m]. *)
Definition md5_step (m : list Z) (st : md5_state) (i : nat) : md5_state :=
  let '(MD5 a b c d) := st in
  let '(f, g) :=
    match Nat.div i 16 with
    | 0%nat => (Z.lor (Z.land b c) (Z.land (not32 b) d), i)
    | 1%nat => (Z.lor (Z.land d b) (Z.land (not32 d) c), Nat.modulo (5 * i + 1) 16)
    | 2%nat => (Z.lxor (Z.lxor b c) d, Nat.modulo (3 * i + 5) 16)
    | _ => (Z.lxor c (Z.lor b (not32 d)), Nat.modulo (7 * i) 16)
    end in
  let f' := add32 (add32 (add32 f a) (nth i md5_K 0%Z)) (nth g m 0%Z) in
  MD5 d (add32 b (rotl32 f' (nth i md5_S 0%Z))) b c.

(** A little-endian 32-bit word from four bytes. *)
Definition word_of_bytes (bs : list Z) : Z :=
  (nth 0 bs 0 + Z.shiftl (nth 1 bs 0) 8 + Z.shiftl (nth 2 bs 0) 16
   + Z.shiftl (nth 3 bs 0) 24)%Z.

Fixpoint words_of_block (n : nat) (bs : list Z) : list Z :=
  match n with
  | O => []
  | S n' => word_of_bytes (firstn 4 bs) :: words_of_block n' (skipn 4 bs)
  end.

Definition md5_block (st : md5_state) (block : list Z) : md5_state :=
  let m := words_of_block 16 block in
  let '(MD5 a b c d) := fold_left (md5_step m) (seq 0 64) st in
  MD5 (add32 (md5_a st) a) (add32 (md5_b st) b)
      (add32 (md5_c st) c) (add32 (md5_d st) d).

Fixpoint md5_blocks (n : nat) (st : md5_state) (bs : list Z) : md5_state :=
  match n with
  | O => st
  | S n' => md5_blocks n' (md5_block st (firstn 64 bs)) (skipn 64 bs)
  end.

(** The eight little-endian bytes of a 64-bit count. *)
Definition le_bytes (n : nat) (x : Z) : list Z :=
  map (fun i => Z.land (Z.shiftr x (8 * Z.of_nat i)) 255) (seq 0 n).

(** The message, a one bit, zeros up to 56 modulo 64, then the bit length. *)
Definition md5_pad (msg : list Z) : list Z :=
  let len := length msg in
  let zeros := Nat.modulo (119 - Nat.modulo len 64) 64 in
  msg ++ 128%Z :: repeat 0%Z zeros ++ le_bytes 8 (8 * Z.of_nat len).

Definition md5_digest (msg : list Z) : md5_state :=
  let padded := md5_pad msg in
  md5_blocks (Nat.div (length padded) 64) md5_init padded.

Definition hex_digit (x : Z) : ascii :=
  match Z.to_nat (Z.land x 15) with
  | 0%nat => "0" | 1%nat => "1" | 2%nat => "2" | 3%nat => "3"
  | 4%nat => "4" | 5%nat => "5" | 6%nat => "6" | 7%nat => "7"
  | 8%nat => "8" | 9%nat => "9" | 10%nat => "a" | 11%nat => "b"
  | 12%nat => "c" | 13%nat => "d" | 14%nat => "e" | _ => "f"
  end%char.

(** Two lower-case hexadecimal digits per byte, high nibble first. *)
Definition hex_of_byte (b : Z) (rest : string) : string :=
  String (hex_digit (Z.shiftr b 4)) (String (hex_digit b) rest).

Definition hex_of_word (w : Z) (rest : string) : string :=
  hex_of_byte w (hex_of_byte (Z.shiftr w 8)
    (hex_of_byte (Z.shiftr w 16) (hex_of_byte (Z.shiftr w 24) rest))).

(** [digest('hex')]: the four state words, each as little-endian bytes. *)
Definition hex_of_state (st : md5_state) : string :=
  hex_of_word (md5_a st) (hex_of_word (md5_b st)
    (hex_of_word (md5_c st) (hex_of_word (md5_d st) ""))).

(** [crypto.createHash('md5').update(s).digest('hex')]: the string is hashed
    as its bytes (a Rocq string is the UTF-8 text). *)
Definition md5_hex (s : string) : string :=
  hex_of_state (md5_digest (map (fun c => Z.of_nat (code c)) (chars s))).

(** A letter or a digit, as the words of [kebabCase] are made of. *)
Definition word_char (c : ascii) : bool := is_lower c || is_digit c.

(** Each run is non-empty and of one kind. *)
Definition run_ok (kr : run_kind * list ascii) : Prop :=
  snd kr <> [] /\ forallb (fun c => same_kind (kind_of c) (fst kr)) (snd kr) = true.

(** Each word is non-empty and made of letters and digits. *)
Definition word_ok (w : string) : Prop :=
  w <> "" /\ forallb word_char (chars w) = true.

Definition is_breaks (k : run_kind) : bool :=
  match k with Breaks => true | _ => false end.

(** The words of [kebabCase s]. *)
Definition kebab_words (s : string) : list string :=
  words (runs (List.filter (fun c => negb (is_char apostrophe c)) (chars s))).

(** ** The shape of a derived name *)

Definition hyphen : ascii := "-"%char.

(** [[a-z0-9-]] and [[0-9a-f]]. *)
Definition name_char (c : ascii) : bool := is_lower c || is_digit c || is_char hyphen c.
Definition hex_char (c : ascii) : bool := is_digit c || in_range 97 102 c.

(** [^[a-z0-9-]+-nativefier-[0-9a-f]{6}$]: a non-empty run of name
    characters, the literal infix, six hexadecimal digits. *)
Definition matches_shape (s : string) : Prop :=
  exists p d : string,
    s = p +:+ "-nativefier-" +:+ d /\
    p <> "" /\ forallb name_char (chars p) = true /\
    String.length d = 6 /\ forallb hex_char (chars d) = true.

(** The names the derivation is specified for: ASCII text that has at least
    one letter or digit. *)
Definition valid_name (s : string) : Prop :=
  forallb is_ascii (chars s) = true /\ existsb is_alnum (chars s) = true.

(** ** The run state, the outside world and the effect monad *)

(** A reference to a configuration object of the store.  The pipeline hands
    configuration objects from stage to stage by reference; the values inside
    an object are immutable trees (this program only ever assigns top-level
    properties). *)
Definition loc : Type := nat.

(** What a function of the pipeline receives or passes to a callback: a
    value, or a reference to a configuration object. *)
Inductive arg : Type :=
| AVal (v : value)
| ARef (l : loc).

Definition arg_truthy (a : arg) : bool :=
  match a with
  | AVal v => truthy v
  | ARef _ => true
  end.

(** The observable events of a run, oldest first in [trace]. *)
Inductive event : Type :=
| Tick (label : string)                  (* progress.tick(label) *)
| ConsoleLog (prefix : string) (v : value) (* console.log(prefix + v) *)
| LogWarn (args : list value)            (* log.warn(...args) *)
| Enter (fn : string)                    (* a function of this program is entered *)
| OptionsFactory (options : obj)         (* the options inference service is called *)
| IconBuild (options : obj)              (* the icon build service is called *)
| Packager (options : obj)               (* the packaging engine is called *)
| Ncp (src dest : string)                (* ncp's copy starts *)
| ExistsSync (path : value)
| ReadFileSync (path : string)
| WriteFileSync (path : string) (doc : option value)
| HasBinarySync (name : string)
| ConsoleOverride
| ConsoleRestore
| ConsolePlayback.

(** The host and the external collaborators, as far as this program observes
    them.  A promise either fulfils ([inr]) or rejects with an [Error] ([inl],
    its message); a synchronous call either returns or throws an [Error]. *)
Record World : Type := {
  (* helpers.isWindows() *)
  isWindows : bool;
  (* hasbin.sync(name), at the n-th lookup of the run: every call looks anew *)
  hasBinary_sync : nat -> string -> bool;
  (* tmp.dirSync(...).name *)
  tmpPath : string;
  (* optionsFactory(options): the promise's outcome *)
  optionsFactory : obj -> string + obj;
  (* the icon build service: the error and the configuration it calls back with *)
  iconBuild : obj -> value * option obj;
  (* packager(options): the promise's outcome, the produced paths *)
  packager : obj -> string + list value;
  (* ncp(src, dest, cb): the message of the error cb receives, if any *)
  ncp : string -> string -> option string;
  (* fs.existsSync(path) *)
  existsSync : string -> bool;
  (* fs.writeFileSync(path, ...): the message of the error thrown, if any *)
  writeFileSync : string -> option string;
  (* JSON.parse(fs.readFileSync(path)): the error thrown, or the object read *)
  readJson : string -> string + obj
}.

(** The store of configuration objects, the events so far (newest first) and
    the number of executable lookups made. *)
Record state : Type := State {
  store : list obj;
  log : list event;
  lookups : nat
}.

Definition trace (st : state) : list event := rev (log st).

(** A computation returns a value or throws; either way it leaves a state. *)
Inductive result (A : Type) : Type :=
| Ok (a : A)
| Throw (e : value).
Arguments Ok {A} a.
Arguments Throw {A} e.

Definition M (A : Type) : Type := state -> result A * state.

Definition ret {A} (a : A) : M A := fun st => (Ok a, st).

Definition bind {A B} (m : M A) (k : A -> M B) : M B :=
  fun st =>
    match m st with
    | (Ok a, st') => k a st'
    | (Throw e, st') => (Throw e, st')
    end.

Definition throw {A} (e : value) : M A := fun st => (Throw e, st).

Declare Scope js_scope.
Delimit Scope js_scope with js.
Notation "'let*' x ':=' m 'in' k" := (bind m (fun x => k))
  (at level 10, x name, m at level 100, k at level 200) : js_scope.
Notation "m1 '>>' m2" := (bind m1 (fun _ => m2))
  (at level 90, right associativity) : js_scope.
Open Scope js_scope.

Definition emit (e : event) : M unit :=
  fun st => (Ok tt, State (store st) (e :: log st) (lookups st)).

(** A fresh object holding the given properties. *)
Definition alloc (o : obj) : M loc :=
  fun st => (Ok (length (store st)), State (store st ++ [o]) (log st) (lookups st)).

Definition type_error : value := VErr "TypeError".

(** The properties of a stored object. *)
Definition read (l : loc) : M obj :=
  fun st =>
    match store st !! l with
    | Some o => (Ok o, st)
    | None => (Throw type_error, st)
    end.

(** [l[k] = v]. *)
Definition assign (l : loc) (k : string) (v : value) : M unit :=
  let* o := read l in
  fun st => (Ok tt, State (<[l := set k v o]> (store st)) (log st) (lookups st)).

Definition tick (label : string) : M unit := emit (Tick label).
Definition console_log (prefix : string) (v : value) : M unit := emit (ConsoleLog prefix v).
Definition log_warn (args : list value) : M unit := emit (LogWarn args).

(** ** src/build/buildApp.js *)

(** The names [selectAppArgs] picks, in the order of its object literal. *)
Definition app_arg_names : list string :=
  [ "name"; "targetUrl"; "counter"; "bounce"; "width"; "height"; "minWidth";
    "minHeight"; "maxWidth"; "maxHeight"; "x"; "y"; "showMenuBar"; "fastQuit";
    "userAgent"; "nativefierVersion"; "ignoreCertificate"; "disableGpu";
    "ignoreGpuBlacklist"; "enableEs3Apis"; "insecure"; "flashPluginDir";
    "diskCacheSize"; "fullScreen"; "hideWindowFrame"; "maximize";
    "disableContextMenu"; "disableDevTools"; "zoom"; "internalUrls";
    "crashReporter"; "singleInstance"; "clearCache"; "appCopyright";
    "appVersion"; "buildVersion"; "win32metadata"; "versionString";
    "processEnvs"; "fileDownloadOptions"; "tray"; "basicAuthUsername";
    "basicAuthPassword"; "alwaysOnTop"; "titleBarStyle"; "globalShortcuts" ].

(** [selectAppArgs(options)]: the object literal [{ name: options.name, ... }],
    one property per listed name, each holding what the read [options.k]
    gives ([undefined] when [options] has no such property). *)
Definition selectAppArgs (options : obj) : obj :=
  map (fun k => (k, getv k options)) app_arg_names.

(** [normalizeAppName(appName, url)]. *)
Definition normalizeAppName (appName url : string) : string :=
  let postFixHash := substring 0 6 (md5_hex url) in
  let normalized := kebabCase (toLowerCase appName) in
  normalized +:+ "-nativefier-" +:+ postFixHash.

(** How one promise of [maybeCopyScripts] settles: fulfilled, rejected while
    its executor runs (the file is missing), or rejected later by the copy. *)
Inductive settled : Type :=
| Fulfilled
| RejectedNow (e : value)
| RejectedLater (e : value).

Definition first_now (s : settled) : option value :=
  match s with RejectedNow e => Some e | _ => None end.

Definition first_later (s : settled) : option value :=
  match s with RejectedLater e => Some e | _ => None end.

Fixpoint find_some {A B} (f : A -> option B) (l : list A) : option B :=
  match l with
  | [] => None
  | x :: l' => match f x with Some y => Some y | None => find_some f l' end
  end.

(** [Promise.all]: fulfilled when every promise is; otherwise rejected with
    the reason of the promise that rejects first: one rejected by its
    executor comes before any rejected by a copy that ends later (copies are
    taken to end in the order they start). *)
Definition promise_all (l : list settled) : option value :=
  match find_some first_now l with
  | Some e => Some e
  | None => find_some first_later l
  end.

Definition template_error (m : string) : string := "Error: " +:+ m.

Section Program.

Variable W : World.

(** [copy(src, dest, cb)]: the error [cb] receives. *)
Definition copy (src dest : string) : M (option string) :=
  emit (Ncp src dest) >> ret (ncp W src dest).

Definition fs_existsSync (path : value) : M bool :=
  emit (ExistsSync path) >>
  ret (match path with VStr p => existsSync W p | _ => false end).

Definition fs_writeFileSync (path : string) (doc : option value) : M unit :=
  emit (WriteFileSync path doc) >>
  match writeFileSync W path with
  | Some m => throw (VErr m)
  | None => ret tt
  end.

(** [JSON.parse(fs.readFileSync(path))]. *)
Definition fs_readJson (path : string) : M obj :=
  emit (ReadFileSync path) >>
  match readJson W path with
  | inl m => throw (VErr m)
  | inr o => ret o
  end.

(** The executor of the promise made for one entry of [srcs]
    ([fs.existsSync] is false for anything but a string). *)
Definition copy_script (dest : string) (src : value) : M settled :=
  let* found := fs_existsSync src in
  if negb found
  then ret (RejectedNow (VErr "Error copying injection files: file not found"))
  else
    match src with
    | VStr s =>
        let copy_as (destFileName : string) : M settled :=
          let* error := copy s (path_join (path_join dest "inject") destFileName) in
          match error with
          | Some m =>
              ret (RejectedLater (VErr ("Error Copying injection files: " +:+ template_error m)))
          | None => ret Fulfilled
          end in
        if String.eqb (extname s) ".js" then copy_as "inject.js"
        else if String.eqb (extname s) ".css" then copy_as "inject.css"
        else ret Fulfilled
    | _ => ret (RejectedNow type_error)
    end.

Fixpoint map_M {A B} (f : A -> M B) (l : list A) : M (list B) :=
  match l with
  | [] => ret []
  | x :: l' => let* y := f x in let* ys := map_M f l' in ret (y :: ys)
  end.

(** [maybeCopyScripts(srcs, dest)]: [None] when the returned promise fulfils,
    the rejection reason otherwise.  A truthy [srcs] that is no array has no
    [map] method. *)
Definition maybeCopyScripts (srcs : value) (dest : string) : M (option value) :=
  emit (Enter "maybeCopyScripts") >>
  if negb (truthy srcs) then ret None
  else
    match srcs with
    | VArr items =>
        let* promises := map_M (copy_script dest) items in
        ret (promise_all promises)
    | _ => throw type_error
    end.

(** [changeAppPackageJsonName(appPath, name)]. *)
Definition changeAppPackageJsonName (appPath : string) (name : value) : M unit :=
  emit (Enter "changeAppPackageJsonName") >>
  let packageJsonPath := path_join appPath "/package.json" in
  let* packageJson := fs_readJson packageJsonPath in
  let packageJson' := set "name" name packageJson in
  console_log "PACKAGE NAME: " name >>
  fs_writeFileSync packageJsonPath (json_clone (VObj packageJson')).

(** [buildApp(src, dest, options, callback)]: what [callback] is called with
    ([undefined] for [callback()]).  ncp resolves its source path and throws
    on anything but a string.  An exception thrown after the copy ends (by a
    file write, or inside the promise chain) escapes and the callback is
    never called: the computation throws. *)
Definition buildApp (src : value) (dest : string) (options : loc) : M value :=
  emit (Enter "buildApp") >>
  let* o := read options in
  let appArgs := selectAppArgs o in
  match src with
  | VStr src' =>
      let* error := copy src' dest in
      match error with
      | Some m => ret (VStr ("Error Copying temporary directory: " +:+ template_error m))
      | None =>
          fs_writeFileSync (path_join dest "/nativefier.json") (json_clone (VObj appArgs)) >>
          let* rejected := maybeCopyScripts (getv "inject" o) dest in
          (match rejected with
           | Some err => log_warn [err]
           | None => ret tt
           end) >>
          changeAppPackageJsonName dest (getv "name" appArgs) >>
          ret VUndef
      end
  | _ => throw type_error
  end.

(** ** src/build/buildMain.js *)

(** [getAppPath(appPathArray)]. *)
Definition getAppPath (appPathArray : list value) : M value :=
  emit (Enter "getAppPath") >>
  if Nat.eqb (length appPathArray) 0 then ret VNull
  else
    (if Nat.ltb 1 (length appPathArray)
     then log_warn [VStr "Warning: This should not be happening, packaged app path contains more than one element:";
                    VArr appPathArray]
     else ret tt) >>
    ret (nth 0 appPathArray VUndef).

(** [hasBinary.sync(name)]: a new lookup at every call. *)
Definition hasBinary (name : string) : M bool :=
  fun st =>
    (Ok (hasBinary_sync W (lookups st) name),
     State (store st) (HasBinarySync name :: log st) (S (lookups st))).

Definition wine_icon_warning : string :=
  "Wine is required to set the icon for a Windows app when packaging on non-windows platforms".

Definition double_quote : string := String "034"%char "".

Definition wine_option_warning (param : string) : string :=
  "Wine is required to use " +:+ double_quote +:+ param +:+ double_quote +:+
  " option for a Windows app when packaging on non-windows platforms".

(** [maybeNoIconOption(options)]. *)
Definition maybeNoIconOption (options : loc) : M loc :=
  emit (Enter "maybeNoIconOption") >>
  let* o := read options in
  let* packageOptions := alloc (json_roundtrip o) in
  let* o' := read options in
  (if strict_eq_str (getv "platform" o') "win32" && negb (isWindows W)
   then
     let* wine := hasBinary "wine" in
     if negb wine
     then log_warn [VStr wine_icon_warning] >> assign packageOptions "icon" VNull
     else ret tt
   else ret tt) >>
  ret packageOptions.

(** [maybeCopyIcons(options, appPath, callback)]: what [callback] is called
    with.  [path.join] and [path.extname] throw on anything but a string. *)
Definition maybeCopyIcons (options : loc) (appPath : value) : M value :=
  emit (Enter "maybeCopyIcons") >>
  let* o := read options in
  if negb (truthy (getv "icon" o)) then ret VUndef
  else if strict_eq_str (getv "platform" o) "darwin" || strict_eq_str (getv "platform" o) "mas"
  then ret VUndef
  else
    match appPath, getv "icon" o with
    | VStr appPath', VStr icon =>
        let destIconPath := path_join appPath' "resources/app" in
        let destFileName := "icon" +:+ extname icon in
        let* error := copy icon (path_join destIconPath destFileName) in
        ret (match error with Some m => VErr m | None => VNull end)
    | _, _ => throw type_error
    end.

(** [removeInvalidOptions(options, param)]. *)
Definition removeInvalidOptions (options : loc) (param : string) : M loc :=
  emit (Enter "removeInvalidOptions") >>
  let* o := read options in
  let* packageOptions := alloc (json_roundtrip o) in
  let* o' := read options in
  (if strict_eq_str (getv "platform" o') "win32" && negb (isWindows W)
   then
     let* wine := hasBinary "wine" in
     if negb wine
     then log_warn [VStr (wine_option_warning param)] >> assign packageOptions param VNull
     else ret tt
   else ret tt) >>
  ret packageOptions.

Definition maybeNoAppCopyrightOption (options : loc) : M loc :=
  removeInvalidOptions options "appCopyright".

Definition maybeNoBuildVersionOption (options : loc) : M loc :=
  removeInvalidOptions options "buildVersion".

Definition maybeNoAppVersionOption (options : loc) : M loc :=
  removeInvalidOptions options "appVersion".

Definition maybeNoVersionStringOption (options : loc) : M loc :=
  removeInvalidOptions options "versionString".

Definition maybeNoWin32metadataOption (options : loc) : M loc :=
  removeInvalidOptions options "win32metadata".

(** *** [async.waterfall]

    A task receives the arguments the previous task gave its callback after
    the error, and calls its own callback once; the model of a task returns
    the arguments of that call.  A truthy first argument, or the end of the
    list, hands all the arguments to the final callback. *)
Definition task : Type := list arg -> M (list arg).

Definition undefined : arg := AVal VUndef.

Fixpoint next_task (tasks : list task) (args : list arg) : M (list arg) :=
  match tasks with
  | [] => ret []
  | t :: rest =>
      let* out := t args in
      match rest with
      | [] => ret out
      | _ :: _ =>
          if arg_truthy (hd undefined out) then ret out
          else next_task rest (tl out)
      end
  end.

Definition waterfall (tasks : list task) : M (list arg) := next_task tasks [].

(** *** The five tasks of [buildMain]

    Each binds its parameters by position; a task that finds something else
    than it expects where it expects an object, an array or its callback
    throws a [TypeError] at the first use. *)
Definition inferring (options : loc) : task := fun _ =>
  tick "inferring" >>
  let* o := read options in
  console_log "PACKAGE NAME 1: " (getv "name" o) >>
  emit (OptionsFactory o) >>
  match optionsFactory W o with
  | inr result =>
      console_log "PACKAGE NAME 1.5: " (getv "name" result) >>
      let* r := alloc result in
      ret [AVal VNull; ARef r]
  | inl error => ret [AVal (VErr error)]
  end.

Definition copying : task := fun args =>
  tick "copying" >>
  match args with
  | [ARef opts] =>
      let* o := read opts in
      console_log "PACKAGE NAME 2:" (getv "name" o) >>
      let* error := buildApp (getv "dir" o) (tmpPath W) opts in
      if truthy error then ret [AVal error]
      else
        let* o2 := read opts in
        let* newOptions := alloc (set "dir" (VStr (tmpPath W)) o2) in
        ret [AVal VNull; ARef newOptions]
  | _ => throw type_error
  end.

Definition icons : task := fun args =>
  tick "icons" >>
  match args with
  | [ARef opts] =>
      let* o := read opts in
      emit (IconBuild o) >>
      match snd (iconBuild W o) with
      | Some o' => let* optionsWithIcon := alloc o' in ret [AVal VNull; ARef optionsWithIcon]
      | None => ret [AVal VNull; undefined]
      end
  | _ => throw type_error
  end.

Definition packaging : task := fun args =>
  tick "packaging" >>
  match args with
  | [ARef opts] =>
      let* packageOptions := maybeNoIconOption opts in
      let* packageOptions := maybeNoAppCopyrightOption packageOptions in
      let* packageOptions := maybeNoAppVersionOption packageOptions in
      let* packageOptions := maybeNoBuildVersionOption packageOptions in
      let* packageOptions := maybeNoVersionStringOption packageOptions in
      let* packageOptions := maybeNoWin32metadataOption packageOptions in
      emit ConsoleOverride >>
      let* sanitized := read packageOptions in
      emit (Packager sanitized) >>
      match packager W sanitized with
      | inr appPathArray =>
          emit ConsoleRestore >> ret [AVal VNull; ARef opts; AVal (VArr appPathArray)]
      | inl error =>
          emit ConsoleRestore >> ret [AVal (VErr error); ARef opts]
      end
  | _ => throw type_error
  end.

Definition finalizing : task := fun args =>
  tick "finalizing" >>
  match args with
  | [ARef opts; AVal (VArr appPathArray)] =>
      let* appPath := getAppPath appPathArray in
      if negb (truthy appPath) then ret []
      else
        let* error := maybeCopyIcons opts appPath in
        ret [AVal error; AVal appPath]
  | _ => throw type_error
  end.

(** [buildMain(inpOptions, callback)]: the two arguments [callback] is called
    with ([undefined] for one the waterfall did not pass).  When a task
    throws, no callback is called and the computation throws. *)
Definition buildMain (inpOptions : loc) : M (arg * arg) :=
  let* inp := read inpOptions in
  let* options := alloc inp in
  let* out := waterfall [inferring options; copying; icons; packaging; finalizing] in
  emit ConsolePlayback >>
  ret (nth 0 out undefined, nth 1 out undefined).

(** The six guards, in the order the packaging task applies them. *)
Definition guards : list (loc -> M loc) :=
  [ maybeNoIconOption; maybeNoAppCopyrightOption; maybeNoAppVersionOption;
    maybeNoBuildVersionOption; maybeNoVersionStringOption;
    maybeNoWin32metadataOption ].

End Program.

(** ** Runs and what is read off their traces *)

(** The state a run starts from: the caller's configuration is the only
    object of the store, nothing has happened yet. *)
Definition init (inpOptions : obj) : state := State [inpOptions] [] 0.

(** A run of [buildMain] on the caller's configuration. *)
Definition run (W : World) (inpOptions : obj) : result (arg * arg) * state :=
  buildMain W 0 (init inpOptions).

(** The state the tasks of a run start from: [buildMain] has copied the
    caller's configuration into a new object. *)
Definition run_start (inp : obj) : state := State [inp; inp] [] 0.

Definition run_tasks (W : World) : list task :=
  [inferring W 1; copying W; icons W; packaging W; finalizing W].

Definition stage_labels : list string :=
  ["inferring"; "copying"; "icons"; "packaging"; "finalizing"].

(** What is read off a list of events: the part [f] keeps of each event. *)
Fixpoint collect {A} (f : event -> option A) (evs : list event) : list A :=
  match evs with
  | [] => []
  | e :: evs' =>
      match f e with
      | Some a => a :: collect f evs'
      | None => collect f evs'
      end
  end.

Definition tick_label (e : event) : option string :=
  match e with Tick l => Some l | _ => None end.

Definition warning_args (e : event) : option (list value) :=
  match e with LogWarn a => Some a | _ => None end.

Definition packaged_options (e : event) : option obj :=
  match e with Packager o => Some o | _ => None end.

Definition lookup_name (e : event) : option string :=
  match e with HasBinarySync n => Some n | _ => None end.

Definition copy_dest (e : event) : option string :=
  match e with Ncp _ dest => Some dest | _ => None end.

(** The labels ticked, the arguments of the warnings, the configurations
    the packaging engine was called with, the executables looked up and the
    destinations copied to. *)
Definition ticks_of : list event -> list string := collect tick_label.
Definition warnings_of : list event -> list (list value) := collect warning_args.
Definition packaged_of : list event -> list obj := collect packaged_options.
Definition lookups_of : list event -> list string := collect lookup_name.
Definition copies_of : list event -> list string := collect copy_dest.

Definition is_enter (fn : string) (e : event) : bool :=
  match e with
  | Enter f => String.eqb f fn
  | _ => false
  end.

(** ** Summaries used in the proofs *)

(** The events the first three stages emit after their tick. *)
Definition staging_event (e : event) : bool :=
  match e with
  | ConsoleLog _ _ | LogWarn _ | OptionsFactory _ | IconBuild _ | Ncp _ _
  | ExistsSync _ | ReadFileSync _ | WriteFileSync _ _ => true
  | Enter fn =>
      String.eqb fn "buildApp" || String.eqb fn "maybeCopyScripts"
      || String.eqb fn "changeAppPackageJsonName"
  | _ => false
  end.

(** The events the finalizing stage emits after its tick. *)
Definition final_event (e : event) : bool :=
  match e with
  | LogWarn _ | Ncp _ _ => true
  | Enter fn => String.eqb fn "getAppPath" || String.eqb fn "maybeCopyIcons"
  | _ => false
  end.

Definition is_tick (e : event) : bool :=
  match e with Tick _ => true | _ => false end.

(** A computation that only emits events of the kind [P]; it leaves the
    store and the lookup counter alone. *)
Definition emits_only {A} (P : event -> bool) (m : M A) : Prop :=
  forall st, exists evs,
    snd (m st) = State (store st) (evs ++ log st) (lookups st) /\
    forallb P evs = true.

(** What one of the first three tasks hands to its callback: it throws,
    reports a (truthy) error, passes on a stored configuration, or passes on
    nothing. *)
Inductive stage_out (st' : state) : result (list arg) -> Prop :=
| so_throw e : stage_out st' (Throw e)
| so_error e : truthy e = true -> stage_out st' (Ok [AVal e])
| so_next l o : store st' !! l = Some o -> stage_out st' (Ok [AVal VNull; ARef l])
| so_nothing : stage_out st' (Ok [AVal VNull; undefined]).

(** A task of one of the first three stages: its tick, then staging events. *)
Definition early_stage (label : string) (t : task) : Prop :=
  forall args st, exists evs r st',
    t args st = (r, st') /\
    log st' = evs ++ Tick label :: log st /\
    forallb staging_event evs = true /\
    lookups st' = lookups st /\
    stage_out st' r.

(** A log (newest first) that holds the ticks of the first [k] stages, in
    order, and otherwise staging events only. *)
Definition early_log (k : nat) (lg : list event) : Prop :=
  forallb (fun e => staging_event e || is_tick e) lg = true /\
  ticks_of (rev lg) = firstn k stage_labels.

(** What a task passes on to the next one: nothing usable, or a stored
    configuration. *)
Definition passed_on (st : state) (a : arg) : Prop :=
  a = undefined \/ exists l o, a = ARef l /\ store st !! l = Some o.

(** A waterfall that ended without success: a task threw, or the final
    callback got a truthy error. *)
Definition failed (r : result (list arg)) : Prop :=
  match r with
  | Throw _ => True
  | Ok out => arg_truthy (hd undefined out) = true
  end.

(** The end of [buildMain], from the packaging task on. *)
Definition finish (W : World) (args : list arg) : M (arg * arg) :=
  let* out := next_task [packaging W; finalizing W] args in
  emit ConsolePlayback >>
  ret (nth 0 out undefined, nth 1 out undefined).

(** The same host with another error reported by the icon build service. *)
Definition with_icon_error (W : World) (f : obj -> value) : World := {|
  isWindows := isWindows W;
  hasBinary_sync := hasBinary_sync W;
  tmpPath := tmpPath W;
  optionsFactory := optionsFactory W;
  iconBuild := fun o => (f o, snd (iconBuild W o));
  packager := packager W;
  ncp := ncp W;
  existsSync := existsSync W;
  writeFileSync := writeFileSync W;
  readJson := readJson W
|}.

(** ** What a guard does, as functions of its input

    A guard looks for wine when the platform is win32 and the host is not
    Windows, and nulls its option when that lookup finds nothing. *)
Definition wants_wine (W : World) (o : obj) : bool :=
  strict_eq_str (getv "platform" o) "win32" && negb (isWindows W).

Definition nulls (W : World) (n : nat) (o : obj) : bool :=
  wants_wine W o && negb (hasBinary_sync W n "wine").

(** The copy a guard returns for the input [o] at lookup count [n]. *)
Definition guarded (W : World) (n : nat) (param : string) (o : obj) : obj :=
  if nulls W n o then set param VNull (json_roundtrip o) else json_roundtrip o.

(** The events of a guard, newest first. *)
Definition guard_events (W : World) (n : nat) (fn warning : string) (o : obj) : list event :=
  (if nulls W n o then [LogWarn [VStr warning]] else []) ++
  (if wants_wine W o then [HasBinarySync "wine"] else []) ++
  [Enter fn].

Definition guard_lookups (W : World) (n : nat) (o : obj) : nat :=
  if wants_wine W o then S n else n.

Definition guard_state (W : World) (fn warning param : string) (o : obj) (st : state) : state :=
  State (store st ++ [guarded W (lookups st) param o])
        (guard_events W (lookups st) fn warning o ++ log st)
        (guard_lookups W (lookups st) o).

(** The options the guards null, with the warning each logs, in the order
    of the packaging task. *)
Definition guarded_options : list (string * string) :=
  [ ("icon", wine_icon_warning);
    ("appCopyright", wine_option_warning "appCopyright");
    ("appVersion", wine_option_warning "appVersion");
    ("buildVersion", wine_option_warning "buildVersion");
    ("versionString", wine_option_warning "versionString");
    ("win32metadata", wine_option_warning "win32metadata") ].

(** The configuration the guards for [params] make of [o], starting at
    lookup count [n]. *)
Fixpoint sanitized_options (W : World) (n : nat) (params : list string) (o : obj) : obj :=
  match params with
  | [] => o
  | p :: ps => sanitized_options W (guard_lookups W n o) ps (guarded W n p o)
  end.

(** The state the guards for [steps] (function, warning, option) leave. *)
Fixpoint sanitized_state (W : World) (steps : list (string * string * string))
    (o : obj) (st : state) : state :=
  match steps with
  | [] => st
  | (fn, warning, param) :: steps' =>
      sanitized_state W steps' (guarded W (lookups st) param o)
        (guard_state W fn warning param o st)
  end.

Definition guard_steps : list (string * string * string) :=
  ("maybeNoIconOption", wine_icon_warning, "icon") ::
  map (fun p => ("removeInvalidOptions", wine_option_warning p, p))
      ["appCopyright"; "appVersion"; "buildVersion"; "versionString"; "win32metadata"].

(** The events of the guards. *)
Definition guard_event (e : event) : bool :=
  match e with
  | LogWarn _ | HasBinarySync _ => true
  | Enter fn => String.eqb fn "maybeNoIconOption" || String.eqb fn "removeInvalidOptions"
  | _ => false
  end.

(** ** Example hosts and configurations *)

(** A Linux host without wine on which every collaborator succeeds: the
    options service resolves with the options it is given, the icon service
    passes them on, the engine produces one bundle. *)
Definition linux_host : World := {|
  isWindows := false;
  hasBinary_sync := fun _ _ => false;
  tmpPath := "/tmp/tmp-1";
  optionsFactory := fun o => inr o;
  iconBuild := fun o => (VNull, Some o);
  packager := fun _ => inr [VStr "/out/app-win32-x64"];
  ncp := fun _ _ => None;
  existsSync := fun _ => true;
  writeFileSync := fun _ => None;
  readJson := fun _ => inr [("name", VStr "app"); ("version", VStr "1.0.0")]
|}.

Definition win32_config : obj :=
  [ ("name", VStr "My App"); ("targetUrl", VStr "https://example.com");
    ("dir", VStr "/src/app"); ("platform", VStr "win32"); ("arch", VStr "x64");
    ("icon", VStr "/icons/app.png"); ("appCopyright", VStr "(c) me");
    ("width", VNum 1280%float); ("counter", VBool false) ].

(** A configuration holding values that have no JSON text. *)
Definition linux_config : obj :=
  [ ("name", VStr "My App"); ("targetUrl", VStr "https://example.com");
    ("dir", VStr "/src/app"); ("platform", VStr "linux");
    ("userAgent", VUndef); ("onReady", VFun "onReady"); ("zoom", VNum nan) ].

(** * Properties *)

(** ** Values and the JSON round trip *)

(** Induction over values that reaches into arrays and objects. *)
Section value_induction.
Variable P : value -> Prop.
Hypothesis P_undef : P VUndef.
Hypothesis P_null : P VNull.
Hypothesis P_bool : forall b, P (VBool b).
Hypothesis P_num : forall n, P (VNum n).
Hypothesis P_str : forall s, P (VStr s).
Hypothesis P_fun : forall f, P (VFun f).
Hypothesis P_err : forall m, P (VErr m).
Hypothesis P_arr : forall items, Forall P items -> P (VArr items).
Hypothesis P_obj : forall fields, Forall (fun kv => P (snd kv)) fields -> P (VObj fields).

Fixpoint value_ind (v : value) : P v :=
  match v with
  | VUndef => P_undef
  | VNull => P_null
  | VBool b => P_bool b
  | VNum n => P_num n
  | VStr s => P_str s
  | VFun f => P_fun f
  | VErr m => P_err m
  | VArr items =>
      P_arr items
        ((fix all (l : list value) : Forall P l :=
            match l with
            | [] => List.Forall_nil P
            | x :: l' => List.Forall_cons P x l' (value_ind x) (all l')
            end) items)
  | VObj fields =>
      P_obj fields
        ((fix all (l : list (string * value)) : Forall (fun kv => P (snd kv)) l :=
            match l with
            | [] => List.Forall_nil _
            | kv :: l' => List.Forall_cons _ kv l' (value_ind (snd kv)) (all l')
            end) fields)
  end.
End value_induction.

Lemma get_set_eq k v o : get k (set k v o) = Some v.
Proof.
  induction o as [|[k' v'] o IH]; simpl.
  - by rewrite String.eqb_refl.
  - destruct (String.eqb k' k) eqn:E; simpl; rewrite E; [done | exact IH].
Qed.

Lemma get_set_ne k k' v o : k <> k' -> get k' (set k v o) = get k' o.
Proof.
  intros Hne. induction o as [|[k0 v0] o IH]; simpl.
  - destruct (String.eqb k k') eqn:E; [|done].
    apply String.eqb_eq in E. contradiction.
  - destruct (String.eqb k0 k) eqn:E; simpl.
    + apply String.eqb_eq in E. subst k0.
      destruct (String.eqb k k') eqn:E'; [|done].
      apply String.eqb_eq in E'. contradiction.
    + by rewrite IH.
Qed.

Lemma get_In k v o : get k o = Some v -> In (k, v) o.
Proof.
  induction o as [|[k' v'] o IH]; simpl; [done|].
  destruct (String.eqb k' k) eqn:E.
  - apply String.eqb_eq in E. intros [= ->]. subst. by left.
  - intros H. right. by apply IH.
Qed.

Lemma In_set k v o kv : In kv (set k v o) -> kv = (k, v) \/ In kv o.
Proof.
  induction o as [|[k' v'] o IH]; simpl.
  - intros [<-|[]]. by left.
  - destruct (String.eqb k' k) eqn:E; simpl.
    + apply String.eqb_eq in E. subst k'. intros [<-|H]; [by left | right; by right].
    + intros [<-|H]; [right; by left|]. destruct (IH H); [by left | right; by right].
Qed.

Lemma json_clone_obj fields :
  json_clone (VObj fields) = Some (VObj (clone_fields fields)).
Proof. reflexivity. Qed.

(** A value the round trip returns is returned again unchanged. *)
Lemma json_clone_idem v v' : json_clone v = Some v' -> json_clone v' = Some v'.
Proof.
  revert v'. induction v as [| |b|n|s|f|m|items IH|fields IH] using value_ind; intros v' H.
  - discriminate.
  - by injection H as <-.
  - by injection H as <-.
  - simpl in H. injection H as <-. destruct (is_finite n) eqn:Hf; [|done].
    destruct (is_neg_zero n) eqn:Hz; simpl.
    + done.
    + by rewrite Hf, Hz.
  - by injection H as <-.
  - discriminate.
  - by injection H as <-.
  - simpl in H. injection H as <-. simpl. do 2 f_equal.
    induction IH as [|x l Hx _ IHl]; simpl; [done|]. f_equal; [|exact IHl].
    destruct (json_clone x) as [y|] eqn:E; simpl; [|done].
    by rewrite (Hx y).
  - rewrite json_clone_obj in H. injection H as <-. rewrite json_clone_obj. do 2 f_equal.
    induction IH as [|[k x] l Hx _ IHl]; simpl; [done|].
    destruct (json_clone x) as [y|] eqn:E; simpl in *; [|exact IHl].
    by rewrite (Hx y), IHl.
Qed.

(** The round trip is the identity exactly on the serializable values. *)
Lemma json_clone_fixed v : json_clone v = Some v <-> serializable v = true.
Proof.
  induction v as [| |b|n|s|f|m|items IH|fields IH] using value_ind; simpl;
    try (split; (done || discriminate)).
  - unfold is_neg_zero. destruct (is_finite n) eqn:Hf; simpl; [|split; discriminate].
    destruct (PrimFloat.is_zero n && PrimFloat.get_sign n) eqn:Hz; simpl; [|done].
    split; [|discriminate]. intros [= Hn]. rewrite <- Hn in Hz. vm_compute in Hz. discriminate.
  - split.
    + intros [= H]. induction IH as [|x l Hx _ IHl]; simpl in *; [done|].
      injection H as H1 H2. apply andb_true_intro. split; [|by apply IHl].
      apply Hx. destruct (json_clone x) as [y|] eqn:E; simpl in H1; [by subst|].
      subst x. discriminate.
    + intros H. do 2 f_equal. induction IH as [|x l Hx _ IHl]; simpl in *; [done|].
      apply andb_prop in H as [H1 H2]. apply Hx in H1. rewrite H1. simpl. f_equal. by apply IHl.
  - fold (clone_fields fields). rewrite <- json_clone_obj at 1.
    rewrite json_clone_obj. split.
    + intros [= H]. revert H. induction IH as [|[k x] l Hx _ IHl]; simpl in *; [done|].
      destruct (json_clone x) as [y|] eqn:E.
      * intros [= -> Hl]. apply andb_true_intro. split; [by apply Hx | by apply IHl].
      * intros H. exfalso.
        assert (Hlen : forall l0, length (clone_fields l0) <= length l0).
        { clear. induction l0 as [|[k0 x0] l0 IH0]; simpl; [lia|].
          destruct (json_clone x0); simpl; lia. }
        specialize (Hlen l). rewrite H in Hlen. simpl in Hlen. lia.
    + intros H. do 2 f_equal. induction IH as [|[k x] l Hx _ IHl]; simpl in *; [done|].
      apply andb_prop in H as [H1 H2]. apply Hx in H1. rewrite H1. f_equal. by apply IHl.
Qed.

(** Every property of a round-tripped object holds a value the round trip
    leaves alone. *)
Lemma clone_fields_fixed o kv :
  In kv (clone_fields o) -> json_clone (snd kv) = Some (snd kv).
Proof.
  induction o as [|[k x] o IH]; simpl; [done|].
  destruct (json_clone x) as [y|] eqn:E; [|exact IH].
  intros [<-|H]; [|by apply IH]. simpl. by apply json_clone_idem with x.
Qed.

Lemma clone_fields_get k v v' o :
  get k o = Some v -> json_clone v = Some v' -> get k (clone_fields o) = Some v'.
Proof.
  induction o as [|[k0 x] o IH]; simpl; [done|].
  destruct (String.eqb k0 k) eqn:E.
  - intros [= ->] ->. simpl. by rewrite E.
  - intros H1 H2. destruct (json_clone x); simpl; [rewrite E|]; by apply IH.
Qed.

Lemma clone_fields_id o :
  forallb (fun kv => serializable (snd kv)) o = true -> clone_fields o = o.
Proof.
  intros H. assert (H' : json_clone (VObj o) = Some (VObj o)) by by apply json_clone_fixed.
  rewrite json_clone_obj in H'. by injection H'.
Qed.

Lemma fixed_fields_serializable (o : obj) :
  (forall kv, In kv o -> json_clone (snd kv) = Some (snd kv)) ->
  forallb (fun kv => serializable (snd kv)) o = true.
Proof.
  intros H. apply forallb_forall. intros kv Hin. apply json_clone_fixed. by apply H.
Qed.

(** ** Strings *)

Lemma chars_str l : chars (str l) = l.
Proof. apply list_ascii_of_string_of_list_ascii. Qed.

Lemma str_chars s : str (chars s) = s.
Proof. apply string_of_list_ascii_of_string. Qed.

Lemma chars_append a b : chars (a +:+ b) = chars a ++ chars b.
Proof. induction a as [|c a IH]; simpl; [done | by rewrite IH]. Qed.

Lemma str_nonempty l : l <> [] -> str l <> "".
Proof. destruct l; [done | discriminate]. Qed.


Lemma word_char_kind c : word_char c = negb (same_kind (kind_of c) Breaks).
Proof.
  unfold word_char, kind_of. destruct (is_lower c); [done|]. by destruct (is_digit c).
Qed.

Lemma lower_char_word c : word_char c = true -> lower_char c = c.
Proof.
  unfold word_char, lower_char, is_lower, is_digit, is_upper, in_range.
  intros H. destruct (Nat.leb 65 (code c) && Nat.leb (code c) 90) eqn:E; [|done].
  exfalso. apply andb_prop in E as [E1 E2].
  apply Nat.leb_le in E1, E2. apply orb_prop in H as [H|H];
    apply andb_prop in H as [H1 H2]; apply Nat.leb_le in H1, H2; lia.
Qed.

Lemma lower_char_alnum c : is_alnum c = true -> word_char (lower_char c) = true.
Proof.
  destruct c as [[] [] [] [] [] [] [] []]; vm_compute; congruence.
Qed.

Lemma lower_char_not_apostrophe c :
  word_char c = true -> is_char apostrophe c = false.
Proof.
  destruct c as [[] [] [] [] [] [] [] []]; vm_compute; congruence.
Qed.

Lemma word_char_name c : word_char c = true -> name_char c = true.
Proof. unfold name_char. fold (word_char c). by intros ->. Qed.

Lemma toLowerCase_word w :
  forallb word_char (chars w) = true -> toLowerCase w = w.
Proof.
  intros H. unfold toLowerCase. rewrite <- (str_chars w) at 2. f_equal.
  induction (chars w) as [|c l IH]; simpl in *; [done|].
  apply andb_prop in H as [H1 H2]. by rewrite lower_char_word, IH.
Qed.


Lemma same_kind_refl k : same_kind k k = true.
Proof. by destruct k. Qed.

Lemma runs_ok l : Forall run_ok (runs l).
Proof.
  induction l as [|c l IH]; simpl; [constructor|].
  destruct (runs l) as [|[k r] rest].
  - constructor; [|constructor]. split; simpl; [done | by rewrite same_kind_refl].
  - inversion IH as [|? ? [Hne Hall] Hrest]; subst. simpl in *.
    destruct (same_kind (kind_of c) k) eqn:E.
    + constructor; [|done]. split; simpl; [done | by rewrite E].
    + constructor; [|by constructor].
      split; simpl; [done | by rewrite same_kind_refl].
Qed.

Lemma letters_word r :
  forallb (fun c => same_kind (kind_of c) Letters) r = true -> forallb word_char r = true.
Proof.
  intros H. apply forallb_forall. intros c Hc.
  rewrite forallb_forall in H. specialize (H c Hc). rewrite word_char_kind.
  by destruct (kind_of c).
Qed.

Lemma digits_word r :
  forallb (fun c => same_kind (kind_of c) Digits) r = true -> forallb word_char r = true.
Proof.
  intros H. apply forallb_forall. intros c Hc.
  rewrite forallb_forall in H. specialize (H c Hc). rewrite word_char_kind.
  by destruct (kind_of c).
Qed.

Ltac invert_runs :=
  repeat match goal with
         | IH : Forall run_ok ?l -> _, H : Forall run_ok ?l |- _ => specialize (IH H)
         | H : Forall run_ok (_ :: _) |- _ =>
             let Hne := fresh "Hne" in
             let Hall := fresh "Hall" in
             let Hrest := fresh "Hrest" in
             apply Forall_cons_1 in H as [[Hne Hall] Hrest]; simpl in Hne, Hall
         end.

Lemma words_ok rs : Forall run_ok rs -> Forall word_ok (words rs).
Proof.
  functional induction (words rs); intros H;
    try solve [constructor]; invert_runs; try assumption;
    (constructor; [split|assumption]);
    try (apply str_nonempty; by destruct d);
    try (by apply str_nonempty);
    rewrite chars_str, ?forallb_app;
    rewrite ?digits_word, ?letters_word by done; done.
Qed.


Lemma words_nonempty rs :
  existsb (fun kr => negb (is_breaks (fst kr))) rs = true -> words rs <> [].
Proof.
  functional induction (words rs); simpl; intros H; try discriminate; auto.
Qed.

Lemma runs_has_word l :
  existsb word_char l = true ->
  existsb (fun kr => negb (is_breaks (fst kr))) (runs l) = true.
Proof.
  induction l as [|c l IH]; simpl; [done|].
  rewrite word_char_kind. intros H.
  destruct (runs l) as [|[k r] rest]; simpl in *.
  - destruct (kind_of c); simpl in *; [done | done | by apply IH].
  - destruct (same_kind (kind_of c) k) eqn:E; simpl.
    + destruct (kind_of c), k; simpl in *; try done; by apply IH.
    + destruct (kind_of c); simpl in *; try done; by apply IH.
Qed.

Lemma join_hyphen_chars ws :
  Forall word_ok ws -> forallb name_char (chars (join_hyphen ws)) = true.
Proof.
  induction 1 as [|w ws [_ Hw] Hws IH]; simpl; [done|].
  assert (Hn : forallb name_char (chars w) = true).
  { apply forallb_forall. intros c Hc. apply word_char_name.
    rewrite forallb_forall in Hw. by apply Hw. }
  destruct ws as [|w' ws']; [done|].
  rewrite !chars_append, !forallb_app, Hn, IH. done.
Qed.

Lemma join_hyphen_nonempty ws :
  Forall word_ok ws -> ws <> [] -> join_hyphen ws <> "".
Proof.
  intros H Hne. destruct H as [|w ws [Hw _] Hws]; [done|]. simpl.
  destruct ws; [done|]. destruct w; [done | discriminate].
Qed.

Lemma map_toLowerCase_words ws :
  Forall word_ok ws -> map toLowerCase ws = ws.
Proof.
  induction 1 as [|w ws [_ Hw] _ IH]; simpl; [done|].
  by rewrite toLowerCase_word, IH.
Qed.


Lemma kebab_words_ok s : Forall word_ok (kebab_words s).
Proof. apply words_ok, runs_ok. Qed.

Lemma kebabCase_words s : kebabCase s = join_hyphen (kebab_words s).
Proof. unfold kebabCase. fold (kebab_words s). by rewrite map_toLowerCase_words by apply kebab_words_ok. Qed.

(** [kebabCase] yields lower-case letters, digits and hyphens only. *)
Lemma kebabCase_chars s : forallb name_char (chars (kebabCase s)) = true.
Proof. rewrite kebabCase_words. apply join_hyphen_chars, kebab_words_ok. Qed.

(** A name with a letter or a digit keeps a word. *)
Lemma kebabCase_nonempty s :
  existsb is_alnum (chars s) = true -> kebabCase (toLowerCase s) <> "".
Proof.
  intros H. rewrite kebabCase_words.
  apply join_hyphen_nonempty; [apply kebab_words_ok|].
  apply words_nonempty, runs_has_word.
  unfold toLowerCase. rewrite chars_str.
  apply existsb_exists in H as (c & Hc & Hal).
  apply existsb_exists. exists (lower_char c). split; [|by apply lower_char_alnum].
  apply filter_In. split; [by apply in_map|].
  by rewrite lower_char_not_apostrophe by by apply lower_char_alnum.
Qed.

Lemma hex_digit_hex x : hex_char (hex_digit x) = true.
Proof.
  unfold hex_digit. generalize (Z.to_nat (Z.land x 15)). intros n.
  do 15 (destruct n as [|n]; [reflexivity|]). reflexivity.
Qed.

(** The first six characters of a digest are six hexadecimal digits. *)
Lemma md5_hex_prefix s :
  String.length (substring 0 6 (md5_hex s)) = 6 /\
  forallb hex_char (chars (substring 0 6 (md5_hex s))) = true.
Proof.
  unfold md5_hex. generalize (md5_digest (map (fun c => Z.of_nat (code c)) (chars s))).
  intros st. unfold hex_of_state, hex_of_word, hex_of_byte. simpl substring.
  split; [reflexivity|]. simpl. by rewrite !hex_digit_hex.
Qed.

Example kebab_samples :
  map kebabCase ["my app"; "foo_bar"; "don't stop"; "route 66"; "a1b2"; "the 1st app";
                 "21st"; "11th"; "1sta"; "--x--"; "!!!"]
  = ["my-app"; "foo-bar"; "dont-stop"; "route-66"; "a-1-b-2"; "the-1st-app";
     "21st"; "11-th"; "1-sta"; "x"; ""].
Proof. vm_compute. reflexivity. Qed.

Example extname_samples :
  map extname ["a/b/inject.js"; "x.css"; ".bashrc"; ".."; "a.."; "..."; "a.b/c"; "a.js/"; "noext"; "a.tar.gz"; "x."]
  = [".js"; ".css"; ""; ""; "."; "."; ""; ".js"; ""; ".gz"; "."].
Proof. vm_compute. reflexivity. Qed.

Example md5_samples :
  map md5_hex [""; "abc"; "https://example.com";
               "12345678901234567890123456789012345678901234567890123456789012345678901234567890"]
  = ["d41d8cd98f00b204e9800998ecf8427e"; "900150983cd24fb0d6963f7d28e17f72";
     "c984d06aafbecf6bc55569f964148ea3"; "57edf4a22be3c955ac49da2e2107b67a"].
Proof. vm_compute. reflexivity. Qed.

Example normalizeAppName_sample :
  normalizeAppName "My App" "https://example.com" = "my-app-nativefier-c984d0".
Proof. vm_compute. reflexivity. Qed.

(** ** The store and the guards *)

Lemma lookup_snoc (s : list obj) (x : obj) : (s ++ [x]) !! length s = Some x.
Proof. by rewrite lookup_app_r, Nat.sub_diag by lia. Qed.

Lemma insert_snoc (s : list obj) (x y : obj) : <[length s := y]> (s ++ [x]) = s ++ [y].
Proof. by rewrite insert_app_r_alt, Nat.sub_diag by lia. Qed.

Lemma lookup_snoc_old (s : list obj) (x o : obj) (l : nat) :
  s !! l = Some o -> (s ++ [x]) !! l = Some o.
Proof. intros H. by apply lookup_app_l_Some. Qed.

(** One guard, run on a stored object: it returns a fresh object and leaves
    the state [guard_state] describes. *)
Lemma removeInvalidOptions_run W l param st o :
  store st !! l = Some o ->
  removeInvalidOptions W l param st =
    (Ok (length (store st)),
     guard_state W "removeInvalidOptions" (wine_option_warning param) param o st).
Proof.
  intros H. destruct st as [s lg n]. simpl in H.
  unfold removeInvalidOptions, guard_state, guard_events, guard_lookups, guarded, nulls,
    wants_wine, bind, emit, read, alloc, assign, hasBinary, log_warn, ret, bind, read; simpl.
  rewrite H. simpl. rewrite (lookup_snoc_old _ _ _ _ H).
  destruct (strict_eq_str (getv "platform" o) "win32" && negb (isWindows W)); simpl; [|done].
  destruct (hasBinary_sync W n "wine"); simpl; [done|].
  rewrite lookup_snoc. simpl. by rewrite insert_snoc.
Qed.

Lemma maybeNoIconOption_run W l st o :
  store st !! l = Some o ->
  maybeNoIconOption W l st =
    (Ok (length (store st)),
     guard_state W "maybeNoIconOption" wine_icon_warning "icon" o st).
Proof.
  intros H. destruct st as [s lg n]. simpl in H.
  unfold maybeNoIconOption, guard_state, guard_events, guard_lookups, guarded, nulls,
    wants_wine, bind, emit, read, alloc, assign, hasBinary, log_warn, ret, bind, read; simpl.
  rewrite H. simpl. rewrite (lookup_snoc_old _ _ _ _ H).
  destruct (strict_eq_str (getv "platform" o) "win32" && negb (isWindows W)); simpl; [|done].
  destruct (hasBinary_sync W n "wine"); simpl; [done|].
  rewrite lookup_snoc. simpl. by rewrite insert_snoc.
Qed.

(** Every guard is one of the two functions above, at some option. *)
Lemma guards_run W g :
  In g (guards W) ->
  exists fn warning param,
    forall l st o, store st !! l = Some o ->
      g l st = (Ok (length (store st)), guard_state W fn warning param o st).
Proof.
  unfold guards. simpl.
  intros [<-|[<-|[<-|[<-|[<-|[<-|[]]]]]]].
  - exists "maybeNoIconOption", wine_icon_warning, "icon". apply maybeNoIconOption_run.
  - eexists _, _, _. intros. by apply removeInvalidOptions_run.
  - eexists _, _, _. intros. by apply removeInvalidOptions_run.
  - eexists _, _, _. intros. by apply removeInvalidOptions_run.
  - eexists _, _, _. intros. by apply removeInvalidOptions_run.
  - eexists _, _, _. intros. by apply removeInvalidOptions_run.
Qed.

(** Every property of a guard's copy holds a value the round trip leaves
    alone. *)
Lemma guarded_fixed W n param o kv :
  In kv (guarded W n param o) -> json_clone (snd kv) = Some (snd kv).
Proof.
  unfold guarded, json_roundtrip. destruct (nulls W n o).
  - intros H. apply In_set in H as [->|H]; [done | by apply clone_fields_fixed with o].
  - apply clone_fields_fixed.
Qed.

Lemma serializable_fixed v : serializable v = false -> json_clone v <> Some v.
Proof. intros H Hv. apply json_clone_fixed in Hv. congruence. Qed.

(** ** Computations that only emit events of one kind *)

Lemma state_eta st : State (store st) (log st) (lookups st) = st.
Proof. by destruct st. Qed.

Section emits_only.
Context {P : event -> bool}.

Lemma eo_ret {A} (a : A) : emits_only P (ret a).
Proof. intros st. exists []. simpl. by rewrite state_eta. Qed.

Lemma eo_throw {A} (e : value) : emits_only P (@throw A e).
Proof. intros st. exists []. simpl. by rewrite state_eta. Qed.

Lemma eo_emit e : P e = true -> emits_only P (emit e).
Proof. intros H st. exists [e]. simpl. by rewrite H. Qed.

Lemma eo_read l : emits_only P (read l).
Proof.
  intros st. exists []. unfold read. destruct (store st !! l); simpl; by rewrite state_eta.
Qed.

Lemma eo_bind {A B} (m : M A) (k : A -> M B) :
  emits_only P m -> (forall a, emits_only P (k a)) -> emits_only P (bind m k).
Proof.
  intros Hm Hk st. unfold bind. destruct (Hm st) as (evs1 & E1 & F1).
  destruct (m st) as [[a|e] st1]; simpl in E1; subst st1.
  - destruct (Hk a (State (store st) (evs1 ++ log st) (lookups st))) as (evs2 & E2 & F2).
    exists (evs2 ++ evs1). simpl in E2. rewrite E2.
    split; [by rewrite app_assoc | by rewrite forallb_app, F1, F2].
  - by exists evs1.
Qed.

Lemma eo_map_M {A B} (f : A -> M B) l :
  (forall x, emits_only P (f x)) -> emits_only P (map_M f l).
Proof.
  intros Hf. induction l as [|x l IH]; simpl; [apply eo_ret|].
  apply eo_bind; [apply Hf|]. intros y.
  apply eo_bind; [apply IH|]. intros ys. apply eo_ret.
Qed.

End emits_only.

Abbreviation quiet := (emits_only staging_event).

Ltac quiet_step :=
  match goal with
  | |- emits_only _ (bind _ _) => apply eo_bind; [|intros ?]
  | |- emits_only _ (ret _) => apply eo_ret
  | |- emits_only _ (throw _) => apply eo_throw
  | |- emits_only _ (emit _) => apply eo_emit; reflexivity
  | |- emits_only _ (read _) => apply eo_read
  | |- emits_only _ (match ?x with _ => _ end) => destruct x
  | |- emits_only _ (if ?b then _ else _) => destruct b
  end.

Ltac quiet_auto := repeat quiet_step.

Lemma copy_quiet W src dest : quiet (copy W src dest).
Proof. unfold copy. quiet_auto. Qed.

Lemma fs_existsSync_quiet W p : quiet (fs_existsSync W p).
Proof. unfold fs_existsSync. quiet_auto. Qed.

Lemma fs_writeFileSync_quiet W p doc : quiet (fs_writeFileSync W p doc).
Proof. unfold fs_writeFileSync. quiet_auto. Qed.

Lemma fs_readJson_quiet W p : quiet (fs_readJson W p).
Proof. unfold fs_readJson. quiet_auto. Qed.

Lemma copy_script_quiet W dest src : quiet (copy_script W dest src).
Proof.
  unfold copy_script. apply eo_bind; [apply fs_existsSync_quiet|]. intros found.
  destruct (negb found); [apply eo_ret|]. destruct src; try apply eo_ret.
  repeat match goal with
         | |- quiet (if ?b then _ else _) => destruct b
         | |- quiet (bind (copy _ _ _) _) => apply eo_bind; [apply copy_quiet | intros ?]
         | |- quiet (match ?x with _ => _ end) => destruct x
         | |- quiet (ret _) => apply eo_ret
         end.
Qed.

Lemma maybeCopyScripts_quiet W srcs dest : quiet (maybeCopyScripts W srcs dest).
Proof.
  unfold maybeCopyScripts. apply eo_bind; [by apply eo_emit|]. intros _.
  destruct (negb (truthy srcs)); [apply eo_ret|].
  destruct srcs; try apply eo_throw.
  apply eo_bind; [apply eo_map_M, copy_script_quiet|]. intros. apply eo_ret.
Qed.

Lemma changeAppPackageJsonName_quiet W appPath name :
  quiet (changeAppPackageJsonName W appPath name).
Proof.
  unfold changeAppPackageJsonName, console_log.
  apply eo_bind; [by apply eo_emit|]. intros _.
  apply eo_bind; [apply fs_readJson_quiet|]. intros pj.
  apply eo_bind; [by apply eo_emit|]. intros _. apply fs_writeFileSync_quiet.
Qed.

(** [buildApp] only emits staging events and changes no stored object. *)
Lemma buildApp_quiet W src dest l : quiet (buildApp W src dest l).
Proof.
  unfold buildApp, log_warn.
  apply eo_bind; [by apply eo_emit|]. intros _.
  apply eo_bind; [apply eo_read|]. intros o.
  destruct src; try apply eo_throw.
  apply eo_bind; [apply copy_quiet|]. intros [m|]; [apply eo_ret|].
  apply eo_bind; [apply fs_writeFileSync_quiet|]. intros _.
  apply eo_bind; [apply maybeCopyScripts_quiet|]. intros rejected.
  apply eo_bind; [destruct rejected; [by apply eo_emit | apply eo_ret]|]. intros _.
  apply eo_bind; [apply changeAppPackageJsonName_quiet|]. intros _. apply eo_ret.
Qed.

(** ** The first three tasks *)

Lemma inferring_early W l : early_stage "inferring" (inferring W l).
Proof.
  intros args st.
  unfold inferring, tick, console_log, bind, emit, read, alloc, ret; simpl.
  destruct (store st !! l) as [o|] eqn:E; simpl.
  - destruct (optionsFactory W o) as [m|res]; simpl.
    + exists [OptionsFactory o; ConsoleLog "PACKAGE NAME 1: " (getv "name" o)].
      eexists _, _. split; [reflexivity|]. repeat split. by constructor.
    + exists [ConsoleLog "PACKAGE NAME 1.5: " (getv "name" res); OptionsFactory o;
              ConsoleLog "PACKAGE NAME 1: " (getv "name" o)].
      eexists _, _. split; [reflexivity|]. repeat split.
      apply so_next with res. apply lookup_snoc.
  - exists []. eexists _, _. split; [reflexivity|]. repeat split. constructor.
Qed.

Lemma copying_early W : early_stage "copying" (copying W).
Proof.
  intros args st. unfold copying, tick, console_log.
  assert (Hthrow : exists evs r st',
    (emit (Tick "copying") >> throw type_error) st = (r, st') /\
    log st' = evs ++ Tick "copying" :: log st /\
    forallb staging_event evs = true /\ lookups st' = lookups st /\
    stage_out st' (r : result (list arg))).
  { exists []. eexists _, _. split; [reflexivity|]. repeat split. constructor. }
  destruct args as [|[v|l] [|? ?]]; try exact Hthrow. clear Hthrow.
  unfold bind at 1. unfold emit at 1. unfold bind at 1. unfold read at 1. simpl.
  destruct (store st !! l) as [o|] eqn:E; simpl.
  2:{ exists []. eexists _, _. split; [reflexivity|]. repeat split. constructor. }
  unfold bind at 1. unfold emit at 1. unfold bind at 1. cbn [store log lookups].
  set (st2 := State (store st) (ConsoleLog "PACKAGE NAME 2:" (getv "name" o) :: Tick "copying" :: log st) (lookups st)).
  destruct (buildApp_quiet W (getv "dir" o) (tmpPath W) l st2) as (evs & Hs & Hf).
  destruct (buildApp W (getv "dir" o) (tmpPath W) l st2) as [[error|e] stb];
    simpl in Hs; subst stb.
  - destruct (truthy error) eqn:Ht.
    + exists (evs ++ [ConsoleLog "PACKAGE NAME 2:" (getv "name" o)]).
      eexists _, _. split; [reflexivity|]. simpl.
      split; [by rewrite <- app_assoc|]. split; [by rewrite forallb_app, Hf|].
      split; [done|]. by constructor.
    + unfold bind, read, alloc, ret. simpl. rewrite E. simpl.
      exists (evs ++ [ConsoleLog "PACKAGE NAME 2:" (getv "name" o)]).
      eexists _, _. split; [reflexivity|]. simpl.
      split; [by rewrite <- app_assoc|]. split; [by rewrite forallb_app, Hf|].
      split; [done|]. eapply so_next. apply lookup_snoc.
  - exists (evs ++ [ConsoleLog "PACKAGE NAME 2:" (getv "name" o)]).
    eexists _, _. split; [reflexivity|]. simpl.
    split; [by rewrite <- app_assoc|]. split; [by rewrite forallb_app, Hf|].
    split; [done|]. constructor.
Qed.

Lemma icons_early W : early_stage "icons" (icons W).
Proof.
  intros args st. unfold icons, tick.
  assert (Hthrow : exists evs r st',
    (emit (Tick "icons") >> throw type_error) st = (r, st') /\
    log st' = evs ++ Tick "icons" :: log st /\
    forallb staging_event evs = true /\ lookups st' = lookups st /\
    stage_out st' (r : result (list arg))).
  { exists []. eexists _, _. split; [reflexivity|]. repeat split. constructor. }
  destruct args as [|[v|l] [|? ?]]; try exact Hthrow. clear Hthrow.
  unfold bind, emit, read, alloc, ret. simpl.
  destruct (store st !! l) as [o|] eqn:E; simpl.
  - destruct (iconBuild W o) as [err [o'|]]; simpl.
    + exists [IconBuild o]. eexists _, _. split; [reflexivity|]. repeat split.
      eapply so_next. apply lookup_snoc.
    + exists [IconBuild o]. eexists _, _. split; [reflexivity|]. repeat split. constructor.
  - exists []. eexists _, _. split; [reflexivity|]. repeat split. constructor.
Qed.

(** ** The waterfall *)

Lemma next_task_step (t t' : task) rest args st :
  next_task (t :: t' :: rest) args st =
  match t args st with
  | (Ok out, st1) =>
      if arg_truthy (hd undefined out) then (Ok out, st1)
      else next_task (t' :: rest) (tl out) st1
  | (Throw e, st1) => (Throw e, st1)
  end.
Proof.
  simpl. unfold bind. destruct (t args st) as [[out|e] st1]; [|done].
  by destruct (arg_truthy (hd undefined out)).
Qed.

Lemma next_task_last (t : task) args st : next_task [t] args st = t args st.
Proof. simpl. unfold bind, ret. by destruct (t args st) as [[out|e] st1]. Qed.

Section collect.
Context {A : Type} (f : event -> option A).

Lemma collect_app l1 l2 : collect f (l1 ++ l2) = collect f l1 ++ collect f l2.
Proof.
  induction l1 as [|e l1 IH]; simpl; [done|]. destruct (f e); simpl; by rewrite IH.
Qed.

Lemma collect_rev l : collect f (rev l) = rev (collect f l).
Proof.
  induction l as [|e l IH]; simpl; [done|]. rewrite collect_app, IH. simpl.
  destruct (f e); simpl; [done | by rewrite app_nil_r].
Qed.

(** Events of a kind [P] that [f] ignores leave nothing. *)
Lemma collect_none (P : event -> bool) l :
  (forall e, P e = true -> f e = None) ->
  forallb P l = true -> collect f l = [].
Proof.
  intros HP. induction l as [|e l IH]; simpl; [done|].
  intros H. apply andb_prop in H as [H1 H2]. by rewrite (HP e H1), IH.
Qed.

Lemma collect_In l a : In a (collect f l) <-> exists e, In e l /\ f e = Some a.
Proof.
  induction l as [|e l IH]; simpl.
  - split; [done | by intros (? & [] & _)].
  - destruct (f e) as [b|] eqn:E; simpl; rewrite IH; split.
    + intros [<-|(e' & He' & Hf)]; [exists e; auto | exists e'; auto].
    + intros (e' & [<-|He'] & Hf); [left; congruence | right; by exists e'].
    + intros (e' & He' & Hf). exists e'. auto.
    + intros (e' & [<-|He'] & Hf); [congruence | by exists e'].
Qed.

End collect.

Lemma ticks_of_app l1 l2 : ticks_of (l1 ++ l2) = ticks_of l1 ++ ticks_of l2.
Proof. apply collect_app. Qed.

Lemma ticks_of_none (P : event -> bool) l :
  (forall e, P e = true -> is_tick e = false) ->
  forallb P l = true -> ticks_of l = [].
Proof.
  intros HP. apply collect_none. intros e He. apply HP in He. by destruct e.
Qed.

Lemma forallb_rev {A} (P : A -> bool) l : forallb P (rev l) = forallb P l.
Proof.
  induction l as [|x l IH]; simpl; [done|].
  rewrite forallb_app, IH. simpl. rewrite andb_true_r. apply andb_comm.
Qed.

Lemma staging_no_tick e : staging_event e = true -> is_tick e = false.
Proof. by destruct e. Qed.

Lemma guard_no_tick e : guard_event e = true -> is_tick e = false.
Proof. by destruct e. Qed.

Lemma final_no_tick e : final_event e = true -> is_tick e = false.
Proof. by destruct e. Qed.

(** One more stage in an early log. *)
Lemma early_log_step k lab evs lg :
  early_log k lg ->
  forallb staging_event evs = true ->
  firstn (S k) stage_labels = firstn k stage_labels ++ [lab] ->
  early_log (S k) (evs ++ Tick lab :: lg).
Proof.
  intros [H1 H2] Hevs Hlab. split.
  - rewrite forallb_app. simpl. rewrite H1, andb_true_r.
    apply forallb_forall. intros e He. rewrite forallb_forall in Hevs.
    by rewrite (Hevs e He).
  - rewrite Hlab, rev_app_distr. cbn [rev]. rewrite <- app_assoc, !ticks_of_app, H2.
    rewrite (ticks_of_none staging_event (rev evs));
      [reflexivity | apply staging_no_tick | by rewrite forallb_rev].
Qed.

(** An early task either ends the waterfall or passes one argument on. *)
Lemma early_step lab (t t' : task) rest args st :
  early_stage lab t ->
  exists evs, forallb staging_event evs = true /\
    ((exists r st', next_task (t :: t' :: rest) args st = (r, st') /\ failed r /\
                    log st' = evs ++ Tick lab :: log st /\ lookups st' = lookups st)
     \/
     (exists a st', next_task (t :: t' :: rest) args st = next_task (t' :: rest) [a] st' /\
                    log st' = evs ++ Tick lab :: log st /\ lookups st' = lookups st /\
                    passed_on st' a)).
Proof.
  intros Ht. destruct (Ht args st) as (evs & r & st' & Hrun & Hlog & Hevs & Hlk & Hout).
  exists evs. split; [done|]. rewrite next_task_step, Hrun.
  destruct Hout as [e|e He|l o Hl|]; simpl.
  - left. by eexists _, _.
  - left. rewrite He. by eexists _, _.
  - right. exists (ARef l), st'. repeat split; try done. right. by exists l, o.
  - right. exists undefined, st'. repeat split; try done. by left.
Qed.

Lemma run_unfold W inp :
  run W inp =
  (let* out := next_task (run_tasks W) [] in
   emit ConsolePlayback >> ret (nth 0 out undefined, nth 1 out undefined)) (run_start inp).
Proof. reflexivity. Qed.

(** The first three stages of a run: either the waterfall ends in one of
    them, or the packaging task starts with what the icons task passed on. *)
Lemma run_prefix W inp :
  (exists r st' k, 1 <= k <= 3 /\
     next_task (run_tasks W) [] (run_start inp) = (r, st') /\ failed r /\
     early_log k (log st') /\ lookups st' = 0)
  \/
  (exists a st3,
     next_task (run_tasks W) [] (run_start inp) =
       next_task [packaging W; finalizing W] [a] st3 /\
     early_log 3 (log st3) /\ lookups st3 = 0 /\ passed_on st3 a).
Proof.
  unfold run_tasks.
  assert (H0 : early_log 0 (log (run_start inp))) by done.
  destruct (early_step "inferring" (inferring W 1) (copying W)
              [icons W; packaging W; finalizing W] [] (run_start inp) (inferring_early W 1))
    as (evs1 & Hevs1 & [(r & st' & Hrun & Hf & Hlog & Hlk)|(a1 & st1 & Hrun1 & Hlog1 & Hlk1 & _)]).
  { left. exists r, st', 1. split; [lia|]. rewrite Hlog.
    split; [done|]. split; [done|]. split; [by apply early_log_step | done]. }
  assert (H1 : early_log 1 (log st1)) by (rewrite Hlog1; by apply early_log_step).
  rewrite Hrun1.
  destruct (early_step "copying" (copying W) (icons W)
              [packaging W; finalizing W] [a1] st1 (copying_early W))
    as (evs2 & Hevs2 & [(r & st' & Hrun & Hf & Hlog & Hlk)|(a2 & st2 & Hrun2 & Hlog2 & Hlk2 & _)]).
  { left. exists r, st', 2. split; [lia|]. rewrite Hlog.
    split; [done|]. split; [done|]. split; [by apply early_log_step | by rewrite Hlk, Hlk1]. }
  assert (H2 : early_log 2 (log st2)) by (rewrite Hlog2; by apply early_log_step).
  rewrite Hrun2.
  destruct (early_step "icons" (icons W) (packaging W)
              [finalizing W] [a2] st2 (icons_early W))
    as (evs3 & Hevs3 & [(r & st' & Hrun & Hf & Hlog & Hlk)|(a3 & st3 & Hrun3 & Hlog3 & Hlk3 & Ha3)]).
  { left. exists r, st', 3. split; [lia|]. rewrite Hlog.
    split; [done|]. split; [done|]. split; [by apply early_log_step | by rewrite Hlk, Hlk2, Hlk1]. }
  right. exists a3, st3. rewrite Hrun3, Hlog3.
  split; [done|]. split; [by apply early_log_step|]. split; [by rewrite Hlk3, Hlk2, Hlk1 | done].
Qed.

(** ** The packaging task *)

Lemma bind_ok {A B} (m : M A) (k : A -> M B) st a st1 :
  m st = (Ok a, st1) -> bind m k st = k a st1.
Proof. intros H. unfold bind. by rewrite H. Qed.

Lemma sanitized_state_store W steps o st l x :
  store st !! l = Some x -> store (sanitized_state W steps o st) !! l = Some x.
Proof.
  revert o st. induction steps as [|[[fn w] p] steps IH]; intros o st H; simpl; [done|].
  apply IH. simpl. by apply lookup_snoc_old.
Qed.

Lemma guard_events_kind W n fn w o :
  fn = "maybeNoIconOption" \/ fn = "removeInvalidOptions" ->
  forallb guard_event (guard_events W n fn w o) = true.
Proof.
  intros Hfn. unfold guard_events.
  destruct (nulls W n o), (wants_wine W o); simpl; destruct Hfn as [->| ->]; reflexivity.
Qed.

Lemma sanitized_state_log W steps o st :
  Forall (fun s => fst (fst s) = "maybeNoIconOption" \/ fst (fst s) = "removeInvalidOptions") steps ->
  exists gevs,
    log (sanitized_state W steps o st) = gevs ++ log st /\
    forallb guard_event gevs = true.
Proof.
  intros Hsteps. revert o st.
  induction Hsteps as [|[[fn w] p] steps Hfn _ IH]; intros o st; simpl.
  - by exists [].
  - destruct (IH (guarded W (lookups st) p o) (guard_state W fn w p o st)) as (g & Hg & Fg).
    exists (g ++ guard_events W (lookups st) fn w o). rewrite Hg. simpl.
    split; [by rewrite app_assoc|]. rewrite forallb_app, Fg. simpl.
    by apply guard_events_kind.
Qed.

Lemma guard_steps_kind :
  Forall (fun s : string * string * string =>
            fst (fst s) = "maybeNoIconOption" \/ fst (fst s) = "removeInvalidOptions")
         guard_steps.
Proof.
  unfold guard_steps. simpl.
  repeat (apply List.Forall_cons; [simpl; auto|]). apply List.Forall_nil.
Qed.

(** The packaging task on a stored configuration: the six guards, then the
    engine on the last copy; the task's own [opts] is what it passes on. *)
Lemma packaging_run W l st pre :
  store st !! l = Some pre ->
  let st6 := sanitized_state W guard_steps pre
               (State (store st) (Tick "packaging" :: log st) (lookups st)) in
  let sanitized := sanitized_options W (lookups st) (map fst guarded_options) pre in
  packaging W [ARef l] st =
    (Ok (match packager W sanitized with
         | inr appPathArray => [AVal VNull; ARef l; AVal (VArr appPathArray)]
         | inl error => [AVal (VErr error); ARef l]
         end),
     State (store st6)
           (ConsoleRestore :: Packager sanitized :: ConsoleOverride :: log st6)
           (lookups st6)).
Proof.
  intros H st6 sanitized. unfold packaging, tick.
  unfold bind at 1. unfold emit at 1. cbn [store log lookups].
  set (st0 := State (store st) (Tick "packaging" :: log st) (lookups st)) in *.
  assert (H0 : store st0 !! l = Some pre) by done.
  unfold maybeNoAppCopyrightOption, maybeNoAppVersionOption, maybeNoBuildVersionOption,
    maybeNoVersionStringOption, maybeNoWin32metadataOption.
  set (o1 := guarded W (lookups st0) "icon" pre).
  set (st1 := guard_state W "maybeNoIconOption" wine_icon_warning "icon" pre st0).
  set (o2 := guarded W (lookups st1) "appCopyright" o1).
  set (st2 := guard_state W "removeInvalidOptions" (wine_option_warning "appCopyright")
                "appCopyright" o1 st1).
  set (o3 := guarded W (lookups st2) "appVersion" o2).
  set (st3 := guard_state W "removeInvalidOptions" (wine_option_warning "appVersion")
                "appVersion" o2 st2).
  set (o4 := guarded W (lookups st3) "buildVersion" o3).
  set (st4 := guard_state W "removeInvalidOptions" (wine_option_warning "buildVersion")
                "buildVersion" o3 st3).
  set (o5 := guarded W (lookups st4) "versionString" o4).
  set (st5 := guard_state W "removeInvalidOptions" (wine_option_warning "versionString")
                "versionString" o4 st4).
  set (o6 := guarded W (lookups st5) "win32metadata" o5).
  assert (E6 : sanitized = o6) by reflexivity.
  assert (S6 : st6 = guard_state W "removeInvalidOptions" (wine_option_warning "win32metadata")
                       "win32metadata" o5 st5) by reflexivity.
  clearbody sanitized st6. subst sanitized st6.
  rewrite (bind_ok _ _ _ _ _ (maybeNoIconOption_run W l st0 pre H0)). fold st1.
  rewrite (bind_ok _ _ _ _ _
             (removeInvalidOptions_run W _ "appCopyright" st1 o1 (lookup_snoc _ _))). fold st2.
  rewrite (bind_ok _ _ _ _ _
             (removeInvalidOptions_run W _ "appVersion" st2 o2 (lookup_snoc _ _))). fold st3.
  rewrite (bind_ok _ _ _ _ _
             (removeInvalidOptions_run W _ "buildVersion" st3 o3 (lookup_snoc _ _))). fold st4.
  rewrite (bind_ok _ _ _ _ _
             (removeInvalidOptions_run W _ "versionString" st4 o4 (lookup_snoc _ _))). fold st5.
  rewrite (bind_ok _ _ _ _ _
             (removeInvalidOptions_run W _ "win32metadata" st5 o5 (lookup_snoc _ _))).
  clearbody o1 st1 o2 st2 o3 st3 o4 st4 o5 st5.
  unfold bind, emit, read, ret, guard_state. cbn [store log lookups].
  rewrite lookup_snoc. fold o6. clearbody o6.
  destruct (packager W o6); reflexivity.
Qed.

(** ** The claims *)

(** C2.  The guards never mutate their input.  Run on the stored object [o]
    at [l], each guard returns a reference [l'] to a new object, different
    from [l]; afterwards [l] still holds [o] and so does every other object of
    the store, also when the guard nulled its option in the copy. *)
Theorem guards_leave_input_unchanged (W : World) (st : state) (l : loc) (o : obj) :
  store st !! l = Some o ->
  Forall2
    (fun (g : loc -> M loc) (opt : string * string) =>
       exists (l' : loc) (o' : obj),
         fst (g l st) = Ok l' /\ l' <> l /\
         store (snd (g l st)) !! l' = Some o' /\
         store (snd (g l st)) !! l = Some o /\
         (forall j oj, store st !! j = Some oj -> store (snd (g l st)) !! j = Some oj) /\
         (nulls W (lookups st) o = true -> get (fst opt) o' = Some VNull))
    (guards W) guarded_options.
Proof.
  intros H.
  assert (Hlt : l < length (store st)) by (by apply lookup_lt_Some with o).
  assert (Hstep : forall fn warning param,
    let st' := guard_state W fn warning param o st in
    exists l' o', Ok (A := loc) (length (store st)) = Ok l' /\ l' <> l /\
      store st' !! l' = Some o' /\ store st' !! l = Some o /\
      (forall j oj, store st !! j = Some oj -> store st' !! j = Some oj) /\
      (nulls W (lookups st) o = true -> get param o' = Some VNull)).
  { intros fn warning param. simpl.
    exists (length (store st)), (guarded W (lookups st) param o).
    split; [done|]. split; [lia|]. split; [apply lookup_snoc|].
    split; [by apply lookup_snoc_old|]. split; [intros; by apply lookup_snoc_old|].
    intros Hn. unfold guarded. rewrite Hn. apply get_set_eq. }
  unfold guards, guarded_options.
  repeat constructor; simpl;
    unfold maybeNoAppCopyrightOption, maybeNoAppVersionOption, maybeNoBuildVersionOption,
      maybeNoVersionStringOption, maybeNoWin32metadataOption;
    rewrite ?(maybeNoIconOption_run W l st o H), ?(removeInvalidOptions_run W l _ st o H);
    apply Hstep.
Qed.

Lemma guards_leave_input_unchanged_witness :
  Forall2
    (fun (g : loc -> M loc) (opt : string * string) =>
       exists (l' : loc) (o' : obj),
         fst (g 0 (init win32_config)) = Ok l' /\ l' <> 0 /\
         store (snd (g 0 (init win32_config))) !! l' = Some o' /\
         store (snd (g 0 (init win32_config))) !! 0 = Some win32_config /\
         (forall j oj, store (init win32_config) !! j = Some oj ->
                       store (snd (g 0 (init win32_config))) !! j = Some oj) /\
         (nulls linux_host (lookups (init win32_config)) win32_config = true ->
          get (fst opt) o' = Some VNull))
    (guards linux_host) guarded_options.
Proof.
  apply (guards_leave_input_unchanged linux_host (init win32_config) 0 win32_config).
  reflexivity.
Defined.

(** C10.  Every guard copies through the JSON round trip, whatever the
    platform and the host.  A property of the input whose value is not
    serializable (undefined, a function, a non-finite number, ...) does not
    have that value in the copy: it is dropped or altered.  The copy equals
    the input only if every property of the input is serializable, and it
    does equal a serializable input that the guard does not null. *)
Theorem guards_copy_through_json (W : World) (st : state) (l : loc) (o : obj) :
  store st !! l = Some o ->
  Forall
    (fun g : loc -> M loc =>
       exists (l' : loc) (o' : obj),
         fst (g l st) = Ok l' /\
         store (snd (g l st)) !! l' = Some o' /\
         (forall k v, get k o = Some v -> serializable v = false -> get k o' <> Some v) /\
         (o' = o -> forallb (fun kv => serializable (snd kv)) o = true) /\
         (nulls W (lookups st) o = false ->
          forallb (fun kv => serializable (snd kv)) o = true -> o' = o))
    (guards W).
Proof.
  intros H. apply Forall_forall. intros g Hg.
  destruct (guards_run W g) as (fn & warning & param & Hrun); [by apply list_elem_of_In|].
  rewrite (Hrun l st o H). simpl.
  exists (length (store st)), (guarded W (lookups st) param o).
  split; [done|]. split; [apply lookup_snoc|]. split; [|split].
  - intros k v Hk Hv Hk'. apply get_In in Hk'.
    apply guarded_fixed in Hk'. simpl in Hk'. by apply serializable_fixed in Hv.
  - intros Heq. apply fixed_fields_serializable. intros kv Hkv.
    rewrite <- Heq in Hkv. by apply guarded_fixed in Hkv.
  - intros Hn Hs. unfold guarded. rewrite Hn. by apply clone_fields_id.
Qed.

Lemma guards_copy_through_json_witness :
  Forall
    (fun g : loc -> M loc =>
       exists (l' : loc) (o' : obj),
         fst (g 0 (init linux_config)) = Ok l' /\
         store (snd (g 0 (init linux_config))) !! l' = Some o' /\
         (forall k v, get k linux_config = Some v -> serializable v = false ->
                      get k o' <> Some v) /\
         (o' = linux_config -> forallb (fun kv => serializable (snd kv)) linux_config = true) /\
         (nulls linux_host (lookups (init linux_config)) linux_config = false ->
          forallb (fun kv => serializable (snd kv)) linux_config = true -> o' = linux_config))
    (guards linux_host).
Proof.
  apply (guards_copy_through_json linux_host (init linux_config) 0 linux_config).
  reflexivity.
Defined.

(** What the round trip makes of [linux_config] on a host that nulls
    nothing: the undefined value and the function are dropped, the
    non-finite number becomes null. *)
Example maybeNoIconOption_linux_config :
  store (snd (maybeNoIconOption linux_host 0 (init linux_config))) !! 1 =
  Some [ ("name", VStr "My App"); ("targetUrl", VStr "https://example.com");
         ("dir", VStr "/src/app"); ("platform", VStr "linux"); ("zoom", VNull) ].
Proof. vm_compute. reflexivity. Qed.

Lemma get_map_names (f : string -> value) (names : list string) (k : string) :
  get k (map (fun n => (n, f n)) names) =
  if existsb (String.eqb k) names then Some (f k) else None.
Proof.
  induction names as [|n names IH]; simpl; [done|].
  rewrite (String.eqb_sym k n). destruct (String.eqb n k) eqn:E; simpl; [|exact IH].
  apply String.eqb_eq in E. by subst.
Qed.

(** C4.  [selectAppArgs] is a total function of the configuration.  The keys
    of its result are exactly the allow-list, in order and without repeats;
    each listed key holds what the read of that property of the input gives
    (undefined when the input lacks it), no other key is present, and applying
    the selector to its own result gives the same result. *)
Theorem selectAppArgs_total_idempotent (options : obj) :
  keys (selectAppArgs options) = app_arg_names /\
  NoDup app_arg_names /\
  (forall k : string,
     get k (selectAppArgs options) =
     if existsb (String.eqb k) app_arg_names then Some (getv k options) else None) /\
  selectAppArgs (selectAppArgs options) = selectAppArgs options.
Proof.
  split; [|split; [|split]].
  - unfold keys, selectAppArgs. rewrite map_map. reflexivity.
  - apply (bool_decide_unpack _). by vm_compute.
  - intros k. apply get_map_names.
  - unfold selectAppArgs at 1 3. apply map_ext_in. intros k Hk. f_equal.
    unfold getv, selectAppArgs. rewrite get_map_names.
    assert (E : existsb (String.eqb k) app_arg_names = true).
    { apply existsb_exists. exists k. split; [done | apply String.eqb_refl]. }
    by rewrite E.
Qed.

Example selectAppArgs_empty :
  selectAppArgs [] = map (fun k => (k, VUndef)) app_arg_names.
Proof. reflexivity. Qed.

Example selectAppArgs_drops_other_fields :
  get "platform" (selectAppArgs win32_config) = None /\
  get "name" (selectAppArgs win32_config) = Some (VStr "My App") /\
  get "zoom" (selectAppArgs win32_config) = Some VUndef.
Proof. vm_compute. done. Qed.

(** C3.  [normalizeAppName] is a function of (name, url): equal arguments
    give equal results.  For a valid name (ASCII, with a letter or a digit)
    the result is the kebab-cased lower-cased name, then [-nativefier-], then
    the first six hexadecimal digits of the MD5 digest of the url, and so it
    matches [^[a-z0-9-]+-nativefier-[0-9a-f]{6}$]. *)
Theorem normalizeAppName_shape (name url : string) :
  valid_name name ->
  (forall name' url' : string,
     name' = name -> url' = url ->
     normalizeAppName name' url' = normalizeAppName name url) /\
  normalizeAppName name url =
    kebabCase (toLowerCase name) +:+ "-nativefier-" +:+ substring 0 6 (md5_hex url) /\
  matches_shape (normalizeAppName name url).
Proof.
  intros [_ Halnum]. split; [by intros ? ? -> ->|]. split; [done|].
  exists (kebabCase (toLowerCase name)), (substring 0 6 (md5_hex url)).
  split; [done|]. split; [by apply kebabCase_nonempty|].
  split; [apply kebabCase_chars|]. apply md5_hex_prefix.
Qed.

Lemma normalizeAppName_shape_witness :
  (forall name' url' : string,
     name' = "My App" -> url' = "https://example.com" ->
     normalizeAppName name' url' = normalizeAppName "My App" "https://example.com") /\
  normalizeAppName "My App" "https://example.com" =
    kebabCase (toLowerCase "My App") +:+ "-nativefier-" +:+
    substring 0 6 (md5_hex "https://example.com") /\
  matches_shape (normalizeAppName "My App" "https://example.com").
Proof.
  apply (normalizeAppName_shape "My App" "https://example.com").
  split; reflexivity.
Defined.

(** Outside the valid names the shape can fail: a name without a letter or
    a digit leaves nothing in front of the infix. *)
Lemma normalizeAppName_no_word :
  normalizeAppName "!!!" "https://example.com" = "-nativefier-c984d0" /\
  ~ matches_shape (normalizeAppName "!!!" "https://example.com").
Proof.
  split; [by vm_compute|].
  intros (p & d & Heq & Hp & _ & Hd & _).
  assert (Hlen : String.length (normalizeAppName "!!!" "https://example.com") = 18) by by vm_compute.
  rewrite Heq in Hlen.
  assert (Happ : forall a b, String.length (a +:+ b) = String.length a + String.length b).
  { clear. induction a; simpl; intros; [done | by rewrite IHa]. }
  rewrite !Happ, Hd in Hlen. simpl in Hlen.
  destruct p; [done | simpl in Hlen; lia].
Qed.
